(** * sanic-praetorian: duration parsing, app-context token data, role names,
      TOTP replay protection and credential checks

    A shallow embedding of [sanic_praetorian/utilities.py], of the user models
    of [example/*.py] and [tests/models.py], and of the parts of the
    authentication engine that the specification describes.

    Python [str] values are modelled as [string]; a character is a code point
    below 256 (the Latin-1 range), on which [str.isspace], [str.lower] and the
    regular-expression class [\d] are given exactly as CPython defines them.
    Python [int] is [Z], [dict] with string keys is [gmap string _], and [set]
    of strings is [gset string]. *)

From stdpp Require Import gmap strings list fin_maps fin_sets pretty.
From Stdlib Require Import ZArith Ascii String Lia.

Open Scope string_scope.

(** ** Python string methods *)

Module PyStr.

Definition code (c : ascii) : N := N_of_ascii c.

Definition in_range (lo hi : N) (c : ascii) : bool :=
  ((lo <=? code c) && (code c <=? hi))%N.

(** [str.isspace] on one character: the code points below 256 that Unicode
    classes as whitespace (TAB..CR, FS..US, SPACE, NEL, NBSP). *)
Definition isspace (c : ascii) : bool :=
  in_range 9 13 c || in_range 28 32 c
  || (code c =? 133)%N || (code c =? 160)%N.

(** Decimal digits below 256: only [0-9]. *)
Definition isdigit (c : ascii) : bool := in_range 48 57 c.

(** [str.lower] on one character: A-Z and the Latin-1 capitals
    (0xC0-0xDE but for the multiplication sign 0xD7) move up by 32. *)
Definition lower_char (c : ascii) : ascii :=
  if in_range 65 90 c || (in_range 192 222 c && negb (code c =? 215)%N)
  then ascii_of_N (code c + 32) else c.

Fixpoint lower (s : string) : string :=
  match s with
  | EmptyString => EmptyString
  | String c s' => String (lower_char c) (lower s')
  end.

(** [s.replace(c, '')] for a one-character [c]. *)
Fixpoint remove (c : ascii) (s : string) : string :=
  match s with
  | EmptyString => EmptyString
  | String a s' =>
      if Ascii.eqb a c then remove c s' else String a (remove c s')
  end.

Fixpoint take_while (p : ascii -> bool) (s : string) : string :=
  match s with
  | EmptyString => EmptyString
  | String a s' => if p a then String a (take_while p s') else EmptyString
  end.

Fixpoint drop_while (p : ascii -> bool) (s : string) : string :=
  match s with
  | EmptyString => EmptyString
  | String a s' => if p a then drop_while p s' else s
  end.

Fixpoint all_chars (p : ascii -> bool) (s : string) : bool :=
  match s with
  | EmptyString => true
  | String a s' => p a && all_chars p s'
  end.

Definition lstrip (s : string) : string := drop_while isspace s.

(** Trailing whitespace is dropped from the right end: a character is kept
    when it is not whitespace or something kept follows it. *)
Fixpoint rstrip (s : string) : string :=
  match s with
  | EmptyString => EmptyString
  | String a s' =>
      match rstrip s' with
      | EmptyString => if isspace a then EmptyString else String a EmptyString
      | r => String a r
      end
  end.

(** [s.strip()] *)
Definition strip (s : string) : string := rstrip (lstrip s).

(** [s.split(sep)] for a one-character separator: never empty, one more
    piece than there are separators. *)
Fixpoint split (sep : ascii) (s : string) : list string :=
  match s with
  | EmptyString => [EmptyString]
  | String a s' =>
      if Ascii.eqb a sep then EmptyString :: split sep s'
      else match split sep s' with
           | piece :: rest => String a piece :: rest
           | [] => [String a EmptyString]
           end
  end.

(** [sep.join(l)] *)
Fixpoint join (sep : ascii) (l : list string) : string :=
  match l with
  | [] => EmptyString
  | [x] => x
  | x :: rest => x ++ String sep (join sep rest)
  end.

Definition digit_value (c : ascii) : Z := Z.of_N (code c) - 48.

Fixpoint int_acc (acc : Z) (s : string) : Z :=
  match s with
  | EmptyString => acc
  | String c s' => int_acc (10 * acc + digit_value c) s'
  end.

(** [int(v)] on a string of decimal digits. *)
Definition int (s : string) : Z := int_acc 0 s.

(** Truthiness of a [str]: non-empty. *)
Definition truthy (s : string) : bool :=
  match s with EmptyString => false | _ => true end.

(** The first [n] characters of [s]. *)
Fixpoint take (n : nat) (s : string) : string :=
  match n, s with
  | S n', String a s' => String a (take n' s')
  | _, _ => EmptyString
  end.

End PyStr.

(** ** Exceptions and results

    Only the class of a raised exception is modelled; the rendering of its
    message belongs to the exceptions module. *)

Inductive exn : Set :=
| PraetorianError
| ConfigurationError
| AuthenticationError
| TOTPRequired
| MissingRoleError
| AttributeError.

#[global] Instance exn_eq_dec : EqDecision exn.
Proof. solve_decision. Defined.

Inductive result (A : Type) : Type :=
| Ok (a : A)
| Raise (e : exn).
Arguments Ok {A} a.
Arguments Raise {A} e.

(** [cls.require_condition(cond, msg)]: raises [cls] when [cond] is falsy. *)
Definition require_condition (cls : exn) (cond : bool) : result unit :=
  if cond then Ok tt else Raise cls.

(** ** A backtracking matcher for the regular expressions of the source

    Greedy operators try the longer match first and fall back, as Python's
    [re] does; a capture made on a path that is later abandoned is dropped
    with that path, because the captures travel with the continuation. *)

Module Re.

Inductive regex : Type :=
| Lit (c : ascii)                       (* a literal character *)
| Digit                                 (* \d *)
| Range (lo hi : ascii)                 (* [lo-hi] *)
| Cat (r1 r2 : regex)                   (* r1 r2 *)
| Star (r : regex)                      (* r*, greedy *)
| Plus (r : regex)                      (* r+, greedy *)
| Opt (r : regex)                       (* r?, greedy *)
| Group (name : option string) (r : regex). (* (r) and (?P<name>r) *)

(** A match object: what the named groups captured, and the text left
    after the end of the match. *)
Record Match : Type := { m_groups : gmap string string; m_rest : string }.

Definition cont : Type := string -> gmap string string -> option Match.

(** The text between two positions, each given by the text that follows it. *)
Definition consumed (s s' : string) : string :=
  PyStr.take (String.length s - String.length s') s.

Definition one_char (p : ascii -> bool) (s : string)
    (g : gmap string string) (k : cont) : option Match :=
  match s with
  | String a s' => if p a then k s' g else None
  | EmptyString => None
  end.

(** Greedy repetition of [step]: one more round first, then the rest of
    the pattern.  A round that consumes nothing ends the repetition. *)
Fixpoint repeat (step : string -> gmap string string -> cont -> option Match)
    (fuel : nat) (s : string) (g : gmap string string) (k : cont)
    : option Match :=
  match
    step s g (fun s' g' =>
      match fuel with
      | S fuel' =>
          if (String.length s' <? String.length s)%nat
          then repeat step fuel' s' g' k else None
      | O => None
      end)
  with
  | Some m => Some m
  | None => k s g
  end.

Fixpoint exec (r : regex) (s : string) (g : gmap string string) (k : cont)
    : option Match :=
  match r with
  | Lit c => one_char (Ascii.eqb c) s g k
  | Digit => one_char PyStr.isdigit s g k
  | Range lo hi =>
      one_char (PyStr.in_range (PyStr.code lo) (PyStr.code hi)) s g k
  | Cat r1 r2 => exec r1 s g (fun s' g' => exec r2 s' g' k)
  | Star r' => repeat (exec r') (String.length s) s g k
  | Plus r' =>
      exec r' s g (fun s' g' => repeat (exec r') (String.length s') s' g' k)
  | Opt r' =>
      match exec r' s g k with
      | Some m => Some m
      | None => k s g
      end
  | Group name r' =>
      exec r' s g (fun s' g' =>
        k s' match name with
             | Some n => <[n := consumed s s']> g'
             | None => g'
             end)
  end.

(** [re.match(pattern, text)]: anchored at the start, not at the end. *)
Definition match_ (r : regex) (text : string) : option Match :=
  exec r text ∅ (fun s g => Some {| m_groups := g; m_rest := s |}).

(** The named groups of a pattern, in the order in which they open. *)
Fixpoint group_names (r : regex) : list string :=
  match r with
  | Lit _ | Digit | Range _ _ => []
  | Cat r1 r2 => group_names r1 ++ group_names r2
  | Star r' | Plus r' | Opt r' => group_names r'
  | Group name r' =>
      match name with Some n => [n] | None => [] end ++ group_names r'
  end.

(** [m.groupdict()]: every named group, [None] for one that took no part. *)
Definition groupdict (r : regex) (m : Match) : list (string * option string) :=
  (fun n => (n, m_groups m !! n)) <$> group_names r.

End Re.

(** ** [sanic_praetorian/utilities.py] *)

(** The characters of [unit], one literal each, and then [r]. *)
Fixpoint lits (unit : string) (r : Re.regex) : Re.regex :=
  match unit with
  | EmptyString => r
  | String c u => Re.Cat (Re.Lit c) (lits u r)
  end.

(** One unit group of the duration pattern: an optional group holding the
    named group of one or more digits, the unit's letters, and any number of
    lower-case letters after them. *)
Definition unit_group (name unit : string) : Re.regex :=
  Re.Opt (Re.Group None
    (Re.Cat (Re.Group (Some name) (Re.Plus Re.Digit))
            (lits unit (Re.Star (Re.Range "a" "z"))))).

(** The pattern of [duration_from_string]; under [re.VERBOSE] the line
    breaks and indentation of the source are not part of it. *)
Definition duration_pattern : Re.regex :=
  Re.Cat (unit_group "years" "y")
 (Re.Cat (unit_group "months" "mo")
 (Re.Cat (unit_group "days" "d")
 (Re.Cat (unit_group "hours" "h")
 (Re.Cat (unit_group "minutes" "m")
         (unit_group "seconds" "s"))))).

(** [text.replace(' ', '').replace(',', '').lower()] *)
Definition normalize (text : string) : string :=
  PyStr.lower (PyStr.remove "," (PyStr.remove " " text)).

(** [{k: int(v) for (k, v) in parts.items() if v}] *)
Definition clean_of (parts : list (string * option string)) : gmap string Z :=
  foldl (fun (d : gmap string Z) (kv : string * option string) =>
           match kv.2 with
           | Some v => if PyStr.truthy v then <[kv.1 := PyStr.int v]> d else d
           | None => d
           end) ∅ parts.

Section Duration.

(** [pendulum.duration] is the library's constructor, called with the
    entries of [clean] as keyword arguments: [None] stands for any exception
    it raises, which [handle_errors] turns into a [ConfigurationError]. *)
Context {Duration : Type}.
Variable pendulum_duration : gmap string Z -> option Duration.

Definition duration_from_string (text : string) : result Duration :=
  let text := normalize text in
  let match_ := Re.match_ duration_pattern text in
  match match_ with
  | None => Raise ConfigurationError
  | Some m =>
      let parts := Re.groupdict duration_pattern m in
      let clean := clean_of parts in
      if bool_decide (clean = ∅) then Raise ConfigurationError
      else match pendulum_duration clean with
           | Some d => Ok d
           | None => Raise ConfigurationError
           end
  end.

End Duration.

(** *** Token data on the application context *)

(** A value of a claim in decoded token data. *)
Inductive jval : Type :=
| JNull
| JStr (s : string)
| JInt (z : Z)
| JBool (b : bool).

#[global] Instance jval_eq_dec : EqDecision jval.
Proof. solve_decision. Defined.

(** What an attribute of the context object holds, as far as this module
    stores or tests it: [None] or a dictionary of token data. *)
Inductive pyval : Type :=
| PyNone
| PyDict (d : gmap string jval).

#[global] Instance pyval_eq_dec : EqDecision pyval.
Proof. solve_decision. Defined.

(** [Sanic.get_app().ctx]: a namespace object, attribute name to value.  The
    functions below all reach the same object, so it is the state they
    thread; an exception leaves it as it was when raised. *)
Definition M (A : Type) : Type :=
  gmap string pyval -> result A * gmap string pyval.

Definition ret {A} (a : A) : M A := fun ctx => (Ok a, ctx).
Definition raise {A} (e : exn) : M A := fun ctx => (Raise e, ctx).
Definition bind {A B} (m : M A) (f : A -> M B) : M B :=
  fun ctx =>
    match m ctx with
    | (Ok a, ctx') => f a ctx'
    | (Raise e, ctx') => (Raise e, ctx')
    end.
Definition get_ctx : M (gmap string pyval) := fun ctx => (Ok ctx, ctx).
Definition put_ctx (ctx' : gmap string pyval) : M unit :=
  fun _ => (Ok tt, ctx').
Definition lift {A} (r : result A) : M A := fun ctx => (r, ctx).

Notation "'let!' x ':=' m 'in' k" := (bind m (fun x => k))
  (at level 10, x name, m at level 100, k at level 200, only parsing).

Definition hasattr (ctx : gmap string pyval) (name : string) : bool :=
  bool_decide (is_Some (ctx !! name)).

Definition getattr (ctx : gmap string pyval) (name : string) (default : pyval)
    : pyval :=
  match ctx !! name with Some v => v | None => default end.

Definition app_context_has_jwt_data : M bool :=
  let! ctx := get_ctx in ret (hasattr ctx "jwt_data").

Definition add_jwt_data_to_app_context (jwt_data : pyval) : M unit :=
  let! ctx := get_ctx in put_ctx (<["jwt_data" := jwt_data]> ctx).

Definition get_jwt_data_from_app_context : M (gmap string jval) :=
  let! ctx := get_ctx in
  match getattr ctx "jwt_data" PyNone with
  | PyNone => raise PraetorianError
  | PyDict jwt_data => ret jwt_data
  end.

Definition remove_jwt_data_from_app_context : M unit :=
  let! ctx := get_ctx in
  let! has := app_context_has_jwt_data in
  if has then put_ctx (delete "jwt_data" ctx) else ret tt.

Definition current_user_id : M jval :=
  let! jwt_data := get_jwt_data_from_app_context in
  match default JNull (jwt_data !! "id") with
  | JNull => raise PraetorianError
  | user_id => ret user_id
  end.

(** The role name handed out for a token without a role claim; the source
    notes that a set that is not empty is needed there "so our set
    arithmetic works correctly". *)
Definition no_roles_sentinel : string :=
  "non-empty-but-definitely-not-matching-subset".

Definition current_rolenames : M (gset string) :=
  let! jwt_data := get_jwt_data_from_app_context in
  match jwt_data !! "rls" with
  | None => ret {[ no_roles_sentinel ]}
  | Some (JStr rls) => ret (list_to_set (PyStr.strip <$> PyStr.split "," rls))
  | Some _ => raise AttributeError
  end.

(** ** User models *)

(** What the engine needs of a user class: the columns it filters on and the
    stored password hash. *)
Class UserClass (U : Type) : Type := {
  identity : U -> Z;
  user_name : U -> string;
  user_email : U -> string;
  user_password : U -> string
}.

(** [cls.filter(...).get()]: the row that passes, [None] standing for
    [DoesNotExist].  The filtered columns are declared unique, so at most one
    row passes. *)
Definition filter_get {U} (p : U -> bool) (table : list U) : option U :=
  List.find p table.

(** [lookup(cls, username=None, email=None)] of the example user models. *)
Definition lookup {U} `{UserClass U} (table : list U)
    (username email : option string) : option U :=
  match username with
  | Some name =>
      if PyStr.truthy name
      then filter_get (fun u => String.eqb (user_name u) name) table
      else match email with
           | Some e =>
               if PyStr.truthy e
               then filter_get (fun u => String.eqb (user_email u) e) table
               else None
           | None => None
           end
  | None =>
      match email with
      | Some e =>
          if PyStr.truthy e
          then filter_get (fun u => String.eqb (user_email u) e) table
          else None
      | None => None
      end
  end.

(** [identify(cls, id)] *)
Definition identify {U} `{UserClass U} (table : list U) (id : Z) : option U :=
  filter_get (fun u => (identity u =? id)%Z) table.

(** [example/blacklist.py] and [example/register.py]: the [roles] column is
    text with default [''];  [None] is Python's [None]. *)
Module Example.

Record User : Type := {
  id : Z;
  username : string;
  password : string;
  email : string;
  roles : option string;
  is_active : bool
}.

(** Column defaults of [User.create]. *)
Definition create (id : Z) (username email password : string) : User :=
  {| id := id; username := username; password := password; email := email;
     roles := Some ""; is_active := true |}.

(** The [rolenames] property: [split] fails on a value that is not text,
    and the handler answers the empty list. *)
Definition rolenames (self : User) : list string :=
  match roles self with
  | Some r => PyStr.split "," r
  | None => []
  end.

#[global] Instance user_class : UserClass User :=
  {| identity := id; user_name := username; user_email := email;
     user_password := password |}.

End Example.

(** [tests/models.py]: [TotpUser] extends [MixinUserTortoise] with the TOTP
    secret and the last accepted counter, both nullable. *)
Module Models.

Record TotpUser : Type := {
  id : Z;
  username : string;
  password : string;
  email : string;
  roles : string;
  totp : option string;
  totp_last_counter : option Z
}.

Definition cache_verify (self : TotpUser) (counter : option Z) : TotpUser :=
  {| id := id self; username := username self; password := password self;
     email := email self; roles := roles self; totp := totp self;
     totp_last_counter := counter |}.

Definition get_cache_verify (self : TotpUser) : option Z :=
  totp_last_counter self.

#[global] Instance totp_user_class : UserClass TotpUser :=
  {| identity := id; user_name := username; user_email := email;
     user_password := password |}.

End Models.

(** ** The engine as the specification describes it

    The decorators and the guard class ([decorators.py], [base.py]) are not
    among the embedded sources; what follows is written from sections 4.4
    and 4.7 of the specification, on top of the user models and utilities
    above. *)

(** Modelled from the spec: [required(roles_needed)], missing decorator
    [roles_required]: "all of roles_needed must be present in the token's
    role set (AND)", failing with [MissingRoleError]. *)
Definition required (roles_needed : list string) (token_roles : gset string)
    : result unit :=
  require_condition MissingRoleError
    (bool_decide ((list_to_set roles_needed : gset string) ⊆ token_roles)).

(** Modelled from the spec: [accepted(roles_any)], missing decorator
    [roles_accepted]: "at least one of roles_any must be present (OR). Fails
    with MissingRoleError if the intersection is empty". *)
Definition accepted (roles_any : list string) (token_roles : gset string)
    : result unit :=
  require_condition MissingRoleError
    (bool_decide
       ((list_to_set roles_any : gset string) ∩ token_roles ≠ ∅)).

(** Modelled from the spec: role evaluation "against the role set in the
    validated token's claims", which [current_rolenames] extracts; the
    decorators that do so are missing. *)
Definition roles_required (roles_needed : list string) : M unit :=
  let! rolenames := current_rolenames in lift (required roles_needed rolenames).

(** Modelled from the spec: the same for [accepted], missing decorator
    [roles_accepted]. *)
Definition roles_accepted (roles_any : list string) : M unit :=
  let! rolenames := current_rolenames in lift (accepted roles_any rolenames).

Section Engine.

Import Models.

(** The pluggable primitives: [CredentialVerifier.verify(plaintext, digest)]
    and the one-time code of a secret at a counter. *)
Variable verify_password : string -> string -> bool.
Variable expected_code : string -> Z -> string.

(** The configured verification window, in counter steps. *)
Variable window : Z.

(** Modelled from the spec: the candidate counters of
    [TOTPVerifier.verify], the range from [current - window] to
    [current + window], closest to current first; of two equally close
    ones the earlier is taken first. *)
Definition candidates (current_counter : Z) : list Z :=
  current_counter ::
  flat_map (fun k => [current_counter - k; current_counter + k])%Z
           (seqZ 1 window).

(** Modelled from the spec: "strictly greater than last_counter (or
    last_counter is null)". *)
Definition beyond (last_counter : option Z) (counter : Z) : bool :=
  match last_counter with
  | None => true
  | Some l => (l <? counter)%Z
  end.

(** Modelled from the spec: [TOTPVerifier.verify], missing from the
    sources; the current counter, read from the clock, is an argument.
    The first candidate whose code is the submitted one and which lies
    beyond [last_counter] is accepted and returned for persisting; with no
    such candidate the code is rejected. *)
Definition totp_verify (secret submitted_code : string)
    (last_counter : option Z) (current_counter : Z) : bool * option Z :=
  match
    List.find (fun c => String.eqb (expected_code secret c) submitted_code
                        && beyond last_counter c)
              (candidates current_counter)
  with
  | Some c => (true, Some c)
  | None => (false, None)
  end.

(** Modelled from the spec: the second-factor step of [authenticate],
    "TOTPVerifier.verify and persist updated counter through the store";
    the store's side is [get_cache_verify] and [cache_verify] of
    [tests/models.py].  A user without a secret has no code to match. *)
Definition verify_and_persist (user : TotpUser) (code : string)
    (current_counter : Z) : (bool * option Z) * TotpUser :=
  match totp user with
  | None => ((false, None), user)
  | Some secret =>
      let r := totp_verify secret code (get_cache_verify user)
                           current_counter in
      (r, if r.1 then cache_verify user r.2 else user)
  end.

(** Modelled from the spec: a sequence of verify operations on one
    principal, each a submitted code and the counter of the clock at that
    time; the answers, in order. *)
Fixpoint run_verifies (user : TotpUser) (ops : list (string * Z))
    : list (bool * option Z) :=
  match ops with
  | [] => []
  | (code, now) :: rest =>
      let '(r, user') := verify_and_persist user code now in
      r :: run_verifies user' rest
  end.

(** Modelled from the spec: [update_fields] of the user store; the row with
    the principal's id is replaced. *)
Definition save (table : list TotpUser) (user : TotpUser) : list TotpUser :=
  (fun u => if (id u =? id user)%Z then user else u) <$> table.

(** Modelled from the spec: [authenticate(identifier, password,
    totp_code?)], missing from the sources: look the principal up, verify
    the password, then the second factor; the answer is the principal for
    which the token engine then mints the access token.  An unknown
    identifier and a wrong password raise the same [AuthenticationError]. *)
Definition authenticate (table : list TotpUser)
    (identifier password : string) (totp_code : option string)
    (current_counter : Z) : result TotpUser * list TotpUser :=
  match lookup table (Some identifier) None with
  | None => (Raise AuthenticationError, table)
  | Some user =>
      if verify_password password (user_password user) then
        match totp_code with
        | None =>
            if bool_decide (is_Some (totp user))
            then (Raise TOTPRequired, table)
            else (Ok user, table)
        | Some code =>
            match verify_and_persist user code current_counter with
            | ((true, _), user') => (Ok user', save table user')
            | ((false, _), _) => (Raise AuthenticationError, table)
            end
        end
      else (Raise AuthenticationError, table)
  end.

End Engine.

(** ** Role names in the specification's words *)

Definition starts_with_space (s : string) : bool :=
  match s with
  | String a _ => PyStr.isspace a
  | EmptyString => false
  end.

Fixpoint ends_with_space (s : string) : bool :=
  match s with
  | EmptyString => false
  | String a EmptyString => PyStr.isspace a
  | String _ s' => ends_with_space s'
  end.

(** [t] is [e] with the whitespace around it trimmed. *)
Definition trimmed_of (e t : string) : Prop :=
  exists l r : string,
    e = l ++ t ++ r
    /\ PyStr.all_chars PyStr.isspace l = true
    /\ PyStr.all_chars PyStr.isspace r = true
    /\ starts_with_space t = false
    /\ ends_with_space t = false.

(** [es] are the comma-separated entries of [s], in order. *)
Definition comma_entries (s : string) (es : list string) : Prop :=
  es <> []
  /\ PyStr.join "," es = s
  /\ Forall (fun e =>
               PyStr.all_chars (fun c => negb (Ascii.eqb c ",")) e = true) es.

(** ** The duration parser in the specification's words *)

(** [s] without the prefix [u], when it has it. *)
Fixpoint after_prefix (u s : string) : option string :=
  match u, s with
  | EmptyString, _ => Some s
  | String a u', String b s' =>
      if Ascii.eqb a b then after_prefix u' s' else None
  | String _ _, EmptyString => None
  end.

Definition is_lower_az : ascii -> bool :=
  PyStr.in_range (PyStr.code "a") (PyStr.code "z").

(** One unit group at the head of [t]: a number, the unit prefix, and
    optional further letters.  The answer is the number's digits and the
    text after the group. *)
Definition scan_group (unit t : string) : option (string * string) :=
  match PyStr.take_while PyStr.isdigit t with
  | EmptyString => None
  | ds =>
      match after_prefix unit (PyStr.drop_while PyStr.isdigit t) with
      | Some r => Some (ds, PyStr.drop_while is_lower_az r)
      | None => None
      end
  end.

(** The unit groups in their fixed order, each with its unit prefix: months
    ask for [mo], minutes for [m]. *)
Definition unit_groups : list (string * string) :=
  [("years", "y"); ("months", "mo"); ("days", "d");
   ("hours", "h"); ("minutes", "m"); ("seconds", "s")].

(** The single pass: every group is tried once, in order, where the groups
    before it left off; a group that matches puts its number in the map, a
    group that does not is left out of the map and the pass stays where it
    is.  The text left at the end is returned with the map. *)
Fixpoint single_pass (groups : list (string * string)) (t : string)
    (d : gmap string Z) : gmap string Z * string :=
  match groups with
  | [] => (d, t)
  | (name, unit) :: rest =>
      match scan_group unit t with
      | Some (ds, t') => single_pass rest t' (<[name := PyStr.int ds]> d)
      | None => single_pass rest t d
      end
  end.

(** The fields that the single pass finds in a text, after normalizing. *)
Definition parse_fields (text : string) : gmap string Z :=
  (single_pass unit_groups (normalize text) ∅).1.

(** The parser as the specification words it: normalize, one pass, an error
    when no field is present. *)
Definition parse_in_words {Duration : Type}
    (pendulum_duration : gmap string Z -> option Duration) (text : string)
    : result Duration :=
  if bool_decide (parse_fields text = ∅) then Raise ConfigurationError
  else match pendulum_duration (parse_fields text) with
       | Some d => Ok d
       | None => Raise ConfigurationError
       end.

(** The same pass, keeping the digits that each group captured. *)
Fixpoint capture_pass (groups : list (string * string)) (t : string)
    (g : gmap string string) : gmap string string * string :=
  match groups with
  | [] => (g, t)
  | (name, unit) :: rest =>
      match scan_group unit t with
      | Some (ds, t') => capture_pass rest t' (<[name := ds]> g)
      | None => capture_pass rest t g
      end
  end.

(** ** Notions for reasoning about the matcher *)

(** A continuation that accepts wherever it is entered, as the end of the
    pattern does. *)
Definition total (k : Re.cont) : Prop := forall s g, is_Some (k s g).

(** What a greedy repetition of a character class amounts to: the longest
    run first, then one character less at a time. *)
Fixpoint backtrack (p : ascii -> bool) (s : string) (g : gmap string string)
    (k : Re.cont) : option Re.Match :=
  match s with
  | String a s' =>
      if p a
      then match backtrack p s' g k with
           | Some m => Some m
           | None => k s g
           end
      else k s g
  | EmptyString => k s g
  end.

(** [r] never falls back once what follows it accepts: it moves from a
    position and captures to those that [F] gives. *)
Definition runs_as (r : Re.regex)
    (F : string -> gmap string string -> gmap string string * string) : Prop :=
  forall k, total k -> forall s g, Re.exec r s g k = k (F s g).2 (F s g).1.

Definition scan_step (name unit : string) (s : string)
    (g : gmap string string) : gmap string string * string :=
  match scan_group unit s with
  | Some (ds, s') => (<[name := ds]> g, s')
  | None => (g, s)
  end.

Definition unit_prefix_ok (unit : string) : Prop :=
  match unit with
  | String c _ => PyStr.isdigit c = false
  | EmptyString => False
  end.

Definition field_of (v : option string) : option Z :=
  match v with
  | Some v' => if PyStr.truthy v' then Some (PyStr.int v') else None
  | None => None
  end.

Definition no_leading_digit (r : string) : Prop :=
  match r with
  | String c _ => PyStr.isdigit c = false
  | EmptyString => True
  end.

(** ** More of [sanic_praetorian/utilities.py] *)

Section CustomClaims.

(** [RESERVED_CLAIMS] comes from the constants module: the claim names that
    the library keeps for itself. *)
Variable RESERVED_CLAIMS : gset string.

Definition current_custom_claims : M (gmap string jval) :=
  let! jwt_data := get_jwt_data_from_app_context in
  ret (filter (fun kv : string * jval => kv.1 ∉ RESERVED_CLAIMS) jwt_data).

End CustomClaims.

Section Guard.

(** The guard object that [init_app] registers and the user objects that its
    user class hands out; [guard.user_class.identify(id)] is the user class's
    own method. *)
Context {Guard User : Type}.
Variable user_class_identify : Guard -> jval -> option User.

(** The application as [current_guard] and [current_user] see it: the
    attributes of [ctx] that hold token data, the [extensions] attribute of
    [ctx] ([None] when it was never set), and the cache that [lru_cache]
    keeps for the call without arguments. *)
Record App : Type := {
  app_ctx : gmap string pyval;
  app_extensions : option (gmap string Guard);
  guard_cache : option Guard
}.

Definition MA (A : Type) : Type := App -> result A * App.

(** A function of [M] run on the token-data attributes of the application. *)
Definition on_ctx {A} (m : M A) : MA A :=
  fun app =>
    let '(r, ctx') := m (app_ctx app) in
    (r, {| app_ctx := ctx'; app_extensions := app_extensions app;
           guard_cache := guard_cache app |}).

Definition bindA {A B} (m : MA A) (f : A -> MA B) : MA B :=
  fun app =>
    match m app with
    | (Ok a, app') => f a app'
    | (Raise e, app') => (Raise e, app')
    end.

(** The body of [current_guard], called without a context. *)
Definition find_guard : MA Guard :=
  fun app =>
    match app_extensions app with
    | None => (Raise AttributeError, app)
    | Some extensions =>
        match extensions !! "praetorian" with
        | None => (Raise PraetorianError, app)
        | Some guard => (Ok guard, app)
        end
    end.

(** [functools.lru_cache(maxsize=None)] on a function called without
    arguments: a value that was returned once is returned from then on; a
    call that raises leaves nothing in the cache. *)
Definition lru_cache (f : MA Guard) : MA Guard :=
  fun app =>
    match guard_cache app with
    | Some guard => (Ok guard, app)
    | None =>
        match f app with
        | (Ok guard, app') =>
            (Ok guard, {| app_ctx := app_ctx app';
                          app_extensions := app_extensions app';
                          guard_cache := Some guard |})
        | (Raise e, app') => (Raise e, app')
        end
    end.

Definition current_guard : MA Guard := lru_cache find_guard.

Definition current_user : MA User :=
  bindA (on_ctx current_user_id) (fun user_id =>
  bindA current_guard (fun guard =>
  match user_class_identify guard user_id with
  | None => fun app => (Raise PraetorianError, app)
  | Some user => fun app => (Ok user, app)
  end)).

End Guard.

(** ** The blacklist of [example/blacklist.py] *)

Module Blacklist.

(** What the route can end in: the token is blacklisted, the guard's
    [extract_token] raised, or the token data has no [jti] ([KeyError]). *)
Inductive outcome : Type :=
| Blacklisted
| ExtractFailed (e : exn)
| KeyError.

Section Routes.

(** [_guard.extract_token(token)] *)
Variable extract_token : string -> result (gmap string jval).

(** [jti in blacklist]; the set is kept as the list of what was added. *)
Definition is_blacklisted (blacklist : list jval) (jti : jval) : bool :=
  bool_decide (jti ∈ blacklist).

(** The body of the [blacklist_token] route, for the token of the request. *)
Definition blacklist_token (blacklist : list jval) (token : string)
    : outcome * list jval :=
  match extract_token token with
  | Raise e => (ExtractFailed e, blacklist)
  | Ok data =>
      match data !! "jti" with
      | None => (KeyError, blacklist)
      | Some jti =>
          (Blacklisted,
           if is_blacklisted blacklist jti then blacklist
           else jti :: blacklist)
      end
  end.

(** The blacklist after a run of requests, in order, starting from
    [blacklist = set()]. *)
Definition serve (tokens : list string) : list jval :=
  foldl (fun blacklist token => (blacklist_token blacklist token).2) [] tokens.

End Routes.

End Blacklist.

(** ** Duration texts *)

(** The first letters of the unit prefixes. *)
Definition unit_letter (c : ascii) : bool :=
  bool_decide (c ∈ ["y"; "m"; "d"; "h"; "s"]%char).

(** The text begins with a number that a unit letter follows. *)
Definition begins_with_number_and_unit (t : string) : bool :=
  PyStr.truthy (PyStr.take_while PyStr.isdigit t)
  && match PyStr.drop_while PyStr.isdigit t with
     | String c _ => unit_letter c
     | EmptyString => false
     end.

(** Made of digits and the letters a to z only. *)
Fixpoint plain (s : string) : bool :=
  match s with
  | EmptyString => true
  | String a s' => (PyStr.isdigit a || is_lower_az a) && plain s'
  end.

(** ** Role names and the roles column *)

(** A role name that survives the trip through the role claim: no comma in
    it and no whitespace at either end. *)
Definition clean_role (r : string) : Prop :=
  PyStr.all_chars (fun c => negb (Ascii.eqb c ",")) r = true
  /\ starts_with_space r = false
  /\ ends_with_space r = false.

(** How often [c] occurs in [s]. *)
Fixpoint count_char (c : ascii) (s : string) : nat :=
  match s with
  | EmptyString => 0
  | String a s' => (if Ascii.eqb a c then 1 else 0) + count_char c s'
  end.


(** ** Fixtures *)

(** The users of the test suite, with a stand-in for the hashing primitive
    that compares the texts, and a code that is the counter's parity. *)
Definition the_dude : Models.TotpUser :=
  {| Models.id := 1; Models.username := "the_dude";
     Models.password := "abides"; Models.email := "the_dude@mock.com";
     Models.roles := "operator"; Models.totp := Some "mock";
     Models.totp_last_counter := Some 5%Z |}.

Definition mock_code (secret : string) (counter : Z) : string :=
  if Z.even counter then secret ++ "-even" else secret ++ "-odd".

(** * Properties *)

(** ** Strings *)

Lemma append_cons (a : ascii) (s t : string) :
  String a s ++ t = String a (s ++ t).
Proof. reflexivity. Qed.

Lemma append_empty_l (s : string) : "" ++ s = s.
Proof. reflexivity. Qed.

Lemma append_empty_r (s : string) : s ++ "" = s.
Proof.
  induction s as [|a s IH]; [reflexivity | now rewrite append_cons, IH].
Qed.

Lemma append_assoc (s t u : string) : (s ++ t) ++ u = s ++ t ++ u.
Proof.
  induction s as [|a s IH]; [reflexivity | now rewrite !append_cons, IH].
Qed.

Lemma take_drop_while (p : ascii -> bool) (s : string) :
  PyStr.take_while p s ++ PyStr.drop_while p s = s.
Proof.
  induction s as [|a s IH]; simpl; [reflexivity |].
  destruct (p a); [now rewrite append_cons, IH | reflexivity].
Qed.

Lemma take_while_all (p : ascii -> bool) (s : string) :
  PyStr.all_chars p (PyStr.take_while p s) = true.
Proof.
  induction s as [|a s IH]; simpl; [reflexivity |].
  destruct (p a) eqn:E; simpl; [now rewrite E | reflexivity].
Qed.

Lemma lstrip_no_leading_space (s : string) :
  starts_with_space (PyStr.lstrip s) = false.
Proof.
  unfold PyStr.lstrip.
  induction s as [|a s IH]; simpl; [reflexivity |].
  destruct (PyStr.isspace a) eqn:E; [exact IH | simpl; exact E].
Qed.

Lemma rstrip_split (s : string) :
  exists r, s = PyStr.rstrip s ++ r /\ PyStr.all_chars PyStr.isspace r = true.
Proof.
  induction s as [|a s (r & Hs & Hr)]; simpl.
  - exists ""; split; reflexivity.
  - destruct (PyStr.rstrip s) as [|b t] eqn:E.
    + rewrite append_empty_l in Hs. subst r.
      destruct (PyStr.isspace a) eqn:Ea.
      * exists (String a s); split; [reflexivity | simpl; now rewrite Ea].
      * exists s; split; [reflexivity | exact Hr].
    + exists r; split; [rewrite append_cons; now rewrite Hs at 1 | exact Hr].
Qed.

Lemma rstrip_no_trailing_space (s : string) :
  ends_with_space (PyStr.rstrip s) = false.
Proof.
  induction s as [|a s IH]; simpl; [reflexivity |].
  destruct (PyStr.rstrip s) as [|b t] eqn:E.
  - destruct (PyStr.isspace a) eqn:Ea; simpl; [reflexivity | exact Ea].
  - exact IH.
Qed.

Lemma rstrip_keeps_head (s : string) :
  starts_with_space s = false -> starts_with_space (PyStr.rstrip s) = false.
Proof.
  destruct s as [|a s]; simpl; [reflexivity |]; intros Ha.
  destruct (PyStr.rstrip s); [rewrite Ha |]; simpl; exact Ha.
Qed.

Lemma strip_trimmed (e : string) : trimmed_of e (PyStr.strip e).
Proof.
  unfold PyStr.strip.
  destruct (rstrip_split (PyStr.lstrip e)) as (r & Hs & Hr).
  exists (PyStr.take_while PyStr.isspace e), r.
  split; [| split; [apply take_while_all | split; [exact Hr | split]]].
  - rewrite <- Hs. symmetry. apply take_drop_while.
  - apply rstrip_keeps_head, lstrip_no_leading_space.
  - apply rstrip_no_trailing_space.
Qed.

Lemma lstrip_spaces (l s : string) :
  PyStr.all_chars PyStr.isspace l = true ->
  PyStr.lstrip (l ++ s) = PyStr.lstrip s.
Proof.
  intros Hl. induction l as [|a l IH]; [reflexivity |].
  simpl in Hl. apply andb_prop in Hl as [Ha Hl].
  rewrite append_cons. unfold PyStr.lstrip in *. simpl. rewrite Ha. auto.
Qed.

Lemma rstrip_spaces (r : string) :
  PyStr.all_chars PyStr.isspace r = true -> PyStr.rstrip r = "".
Proof.
  induction r as [|a r IH]; [reflexivity |]. simpl.
  intros [Ha Hr]%andb_prop. now rewrite (IH Hr), Ha.
Qed.

Lemma rstrip_trailing_spaces (t r : string) :
  PyStr.all_chars PyStr.isspace r = true ->
  PyStr.rstrip (t ++ r) = PyStr.rstrip t.
Proof.
  intros Hr. induction t as [|a t IH].
  - rewrite append_empty_l. now apply rstrip_spaces.
  - rewrite append_cons. simpl. now rewrite IH.
Qed.

Lemma rstrip_nothing_to_drop (t : string) :
  ends_with_space t = false -> PyStr.rstrip t = t.
Proof.
  induction t as [|a t IH]; [reflexivity |]. simpl. intros Hend.
  destruct t as [|b t].
  - simpl. now rewrite Hend.
  - rewrite (IH Hend). reflexivity.
Qed.

(** Trimming has one answer: the text between the whitespace is what
    [strip] returns. *)
Lemma trimmed_of_strip (e t : string) : trimmed_of e t -> t = PyStr.strip e.
Proof.
  intros (l & r & -> & Hl & Hr & Hhead & Hend). unfold PyStr.strip.
  rewrite lstrip_spaces by exact Hl.
  destruct t as [|a t].
  - rewrite append_empty_l.
    rewrite <- (append_empty_r r), lstrip_spaces by exact Hr. reflexivity.
  - simpl in Hhead. rewrite append_cons. unfold PyStr.lstrip. simpl.
    rewrite Hhead. rewrite <- append_cons.
    rewrite rstrip_trailing_spaces by exact Hr.
    symmetry. now apply rstrip_nothing_to_drop.
Qed.

Lemma split_not_nil (sep : ascii) (s : string) : PyStr.split sep s <> [].
Proof.
  destruct s as [|a s]; simpl; [discriminate |].
  destruct (Ascii.eqb a sep); [discriminate |].
  destruct (PyStr.split sep s); discriminate.
Qed.

Lemma join_cons (sep : ascii) (x : string) (l : list string) :
  l <> [] -> PyStr.join sep (x :: l) = x ++ String sep (PyStr.join sep l).
Proof. destruct l; [congruence | reflexivity]. Qed.

Lemma join_split (sep : ascii) (s : string) :
  PyStr.join sep (PyStr.split sep s) = s.
Proof.
  induction s as [|a s IH]; [reflexivity |].
  pose proof (split_not_nil sep s) as Hne.
  cbn [PyStr.split].
  destruct (Ascii.eqb a sep) eqn:E.
  - apply Ascii.eqb_eq in E. subst a.
    rewrite join_cons by exact Hne. now rewrite append_empty_l, IH.
  - destruct (PyStr.split sep s) as [|x l]; [congruence |].
    destruct l as [|y l].
    + simpl in *. now rewrite IH.
    + rewrite join_cons in * by discriminate.
      rewrite append_cons. now rewrite IH.
Qed.

Lemma split_pieces_no_sep (sep : ascii) (s : string) :
  Forall (fun e => PyStr.all_chars (fun c => negb (Ascii.eqb c sep)) e = true)
         (PyStr.split sep s).
Proof.
  induction s as [|a s IH]; simpl.
  - constructor; [reflexivity | constructor].
  - destruct (Ascii.eqb a sep) eqn:E.
    + constructor; [reflexivity | exact IH].
    + destruct (PyStr.split sep s) as [|x l].
      * constructor; [simpl; now rewrite E | constructor].
      * inversion IH; subst.
        constructor; [simpl; now rewrite E | assumption].
Qed.

Lemma split_comma_entries (s : string) : comma_entries s (PyStr.split "," s).
Proof.
  split; [apply split_not_nil | split; [apply join_split |]].
  apply split_pieces_no_sep.
Qed.

(** The pieces of a text are determined by the text: two lists of
    separator-free pieces that join to the same text are the same list. *)
Lemma comma_entries_unique (s : string) (es1 es2 : list string) :
  comma_entries s es1 -> comma_entries s es2 -> es1 = es2.
Proof.
  intros (Hne1 & Hj1 & Hf1) (Hne2 & Hj2 & Hf2).
  rewrite <- Hj2 in Hj1. clear Hj2 s.
  revert es2 Hne2 Hj1 Hf2.
  induction es1 as [|x l1 IH]; [congruence |]; intros es2 Hne2 Hj Hf2.
  destruct es2 as [|y l2]; [congruence |].
  inversion Hf1 as [|? ? Hx Hl1]; inversion Hf2 as [|? ? Hy Hl2]; subst.
  assert (Hhead : forall (x y : string) (t u : string),
    PyStr.all_chars (fun c => negb (Ascii.eqb c ",")) x = true ->
    PyStr.all_chars (fun c => negb (Ascii.eqb c ",")) y = true ->
    (t = "" \/ exists t', t = String "," t') ->
    (u = "" \/ exists u', u = String "," u') ->
    x ++ t = y ++ u -> x = y /\ t = u).
  { clear. induction x as [|a x IHx]; intros [|b y] t u Hx Hy Ht Hu E;
      rewrite ?append_cons, ?append_empty_l in E; simpl in *.
    - split; [reflexivity | exact E].
    - destruct Ht as [-> | (t' & ->)]; [discriminate |].
      injection E as <- _. simpl in Hy. discriminate.
    - destruct Hu as [-> | (u' & ->)]; [discriminate |].
      injection E as -> _. simpl in Hx. discriminate.
    - injection E as <- E.
      apply andb_prop in Hx as [_ Hx]. apply andb_prop in Hy as [_ Hy].
      destruct (IHx y t u Hx Hy Ht Hu E) as [-> ->]. split; reflexivity. }
  destruct l1 as [|x1 l1]; destruct l2 as [|y1 l2].
  - simpl in Hj. now subst.
  - rewrite (join_cons _ y) in Hj by discriminate.
    change (PyStr.join "," [x]) with x in Hj.
    rewrite <- (append_empty_r x) in Hj.
    destruct (Hhead x y "" _ Hx Hy (or_introl eq_refl)
                (or_intror (ex_intro _ _ eq_refl)) Hj) as [_ ?]. discriminate.
  - rewrite (join_cons _ x) in Hj by discriminate.
    change (PyStr.join "," [y]) with y in Hj.
    rewrite <- (append_empty_r y) in Hj.
    destruct (Hhead x y _ "" Hx Hy (or_intror (ex_intro _ _ eq_refl))
                (or_introl eq_refl) Hj) as [_ ?]. discriminate.
  - rewrite (join_cons _ x), (join_cons _ y) in Hj by discriminate.
    destruct (Hhead x y _ _ Hx Hy (or_intror (ex_intro _ _ eq_refl))
                (or_intror (ex_intro _ _ eq_refl)) Hj) as [-> E].
    injection E as E. f_equal.
    apply (IH ltac:(discriminate) Hl1 (y1 :: l2));
      [discriminate | exact E | exact Hl2].
Qed.

(** ** Token data on the application context *)

Lemma get_after_add (d : gmap string jval) (ctx : gmap string pyval) :
  get_jwt_data_from_app_context (<["jwt_data" := PyDict d]> ctx)
  = (Ok d, <["jwt_data" := PyDict d]> ctx).
Proof.
  unfold get_jwt_data_from_app_context, bind, get_ctx, getattr.
  now rewrite lookup_insert_eq.
Qed.

Lemma remove_deletes (ctx : gmap string pyval) :
  remove_jwt_data_from_app_context ctx = (Ok tt, delete "jwt_data" ctx).
Proof.
  unfold remove_jwt_data_from_app_context, app_context_has_jwt_data, bind,
    get_ctx, ret, put_ctx, hasattr.
  case_bool_decide as Hhas; [reflexivity |].
  rewrite delete_id; [reflexivity |].
  destruct (ctx !! "jwt_data") eqn:E; [| reflexivity].
  exfalso. apply Hhas. now exists p.
Qed.

Lemma get_without_data (ctx : gmap string pyval) :
  ctx !! "jwt_data" = None ->
  get_jwt_data_from_app_context ctx = (Raise PraetorianError, ctx).
Proof.
  intros E. unfold get_jwt_data_from_app_context, bind, get_ctx, getattr.
  now rewrite E.
Qed.

(** C10: token data that was added is what the getter returns; removal
    never raises, with or without token data attached; after it the context
    has no token data, the getter raises [PraetorianError], and a second
    removal changes nothing. *)
Theorem jwt_data_add_get_remove (d : gmap string jval)
    (ctx : gmap string pyval) :
  (let! _ := add_jwt_data_to_app_context (PyDict d) in
   get_jwt_data_from_app_context) ctx
  = (Ok d, <["jwt_data" := PyDict d]> ctx)
  /\ (exists ctx',
        remove_jwt_data_from_app_context ctx = (Ok tt, ctx')
        /\ app_context_has_jwt_data ctx' = (Ok false, ctx')
        /\ get_jwt_data_from_app_context ctx' = (Raise PraetorianError, ctx')
        /\ remove_jwt_data_from_app_context ctx' = (Ok tt, ctx')
        /\ forall name, name <> "jwt_data" -> ctx' !! name = ctx !! name).
Proof.
  split.
  - unfold bind at 1.
    unfold add_jwt_data_to_app_context, bind, get_ctx, put_ctx.
    apply get_after_add.
  - exists (delete "jwt_data" ctx).
    split; [apply remove_deletes |].
    split; [| split; [| split]].
    + unfold app_context_has_jwt_data, bind, get_ctx, ret, hasattr.
      rewrite bool_decide_eq_false_2; [reflexivity |].
      rewrite lookup_delete_eq. intros [x Hx]. discriminate.
    + apply get_without_data, lookup_delete_eq.
    + rewrite remove_deletes. now rewrite delete_delete_eq.
    + intros name Hne. now apply lookup_delete_ne.
Qed.

(** ** Role names *)

Lemma get_with_data (d : gmap string jval) (ctx : gmap string pyval) :
  ctx !! "jwt_data" = Some (PyDict d) ->
  get_jwt_data_from_app_context ctx = (Ok d, ctx).
Proof.
  intros E. unfold get_jwt_data_from_app_context, bind, get_ctx, getattr.
  now rewrite E.
Qed.

Lemma current_rolenames_no_claim (d : gmap string jval)
    (ctx : gmap string pyval) :
  ctx !! "jwt_data" = Some (PyDict d) -> d !! "rls" = None ->
  current_rolenames ctx = (Ok {[ no_roles_sentinel ]}, ctx).
Proof.
  intros Hctx Hd. unfold current_rolenames, bind.
  now rewrite (get_with_data d), Hd.
Qed.

Lemma current_rolenames_text (d : gmap string jval) (ctx : gmap string pyval)
    (rls : string) :
  ctx !! "jwt_data" = Some (PyDict d) -> d !! "rls" = Some (JStr rls) ->
  current_rolenames ctx
  = (Ok (list_to_set (PyStr.strip <$> PyStr.split "," rls)), ctx).
Proof.
  intros Hctx Hd. unfold current_rolenames, bind.
  now rewrite (get_with_data d), Hd.
Qed.

Lemma required_ok (roles_needed : list string) (token_roles : gset string) :
  required roles_needed token_roles = Ok tt
  <-> forall r, r ∈ roles_needed -> r ∈ token_roles.
Proof.
  unfold required, require_condition. case_bool_decide as H; split.
  - intros _ r Hr. apply H. now apply elem_of_list_to_set.
  - reflexivity.
  - discriminate.
  - intros Hall. exfalso. apply H. intros r Hr.
    apply Hall. now apply elem_of_list_to_set in Hr.
Qed.

Lemma accepted_ok (roles_any : list string) (token_roles : gset string) :
  accepted roles_any token_roles = Ok tt
  <-> exists r, r ∈ roles_any /\ r ∈ token_roles.
Proof.
  unfold accepted, require_condition. case_bool_decide as H; split.
  - intros _. apply set_choose_L in H as [r Hr].
    apply elem_of_intersection in Hr as [Hr1 Hr2].
    exists r. split; [now apply elem_of_list_to_set in Hr1 | exact Hr2].
  - reflexivity.
  - discriminate.
  - intros (r & Hr1 & Hr2). exfalso.
    apply (not_elem_of_empty (C := gset string) r). rewrite <- H.
    apply elem_of_intersection.
    split; [now apply elem_of_list_to_set | exact Hr2].
Qed.

(** C1, as the code has it: for token data without a role claim,
    [current_rolenames] returns the one-element set that holds the sentinel
    role name, not the empty set.  On such a token [required] succeeds
    exactly when every needed role is the sentinel, so for the empty list and
    for no list that names a real role; [accepted] succeeds exactly when the
    sentinel is among the listed roles, so never for the empty list. *)
Theorem no_role_claim_rolenames (d : gmap string jval)
    (ctx : gmap string pyval) :
  ctx !! "jwt_data" = Some (PyDict d) -> d !! "rls" = None ->
  current_rolenames ctx = (Ok {[ no_roles_sentinel ]}, ctx)
  /\ (forall roles_needed,
        roles_required roles_needed ctx = (Ok tt, ctx)
        <-> forall r, r ∈ roles_needed -> r = no_roles_sentinel)
  /\ (forall roles_any,
        roles_accepted roles_any ctx = (Ok tt, ctx)
        <-> no_roles_sentinel ∈ roles_any)
  /\ roles_required [] ctx = (Ok tt, ctx)
  /\ roles_accepted [] ctx = (Raise MissingRoleError, ctx).
Proof.
  intros Hctx Hd.
  pose proof (current_rolenames_no_claim d ctx Hctx Hd) as Hcur.
  assert (Hreq : forall roles_needed,
            roles_required roles_needed ctx = (Ok tt, ctx)
            <-> forall r, r ∈ roles_needed -> r = no_roles_sentinel).
  { intros roles_needed. unfold roles_required, bind, lift. rewrite Hcur.
    split.
    - intros E r Hr. injection E as E.
      apply required_ok with (r := r) in E; [| exact Hr].
      now apply elem_of_singleton in E.
    - intros Hall. f_equal. apply required_ok. intros r Hr.
      apply elem_of_singleton. now apply Hall. }
  assert (Hacc : forall roles_any,
            roles_accepted roles_any ctx = (Ok tt, ctx)
            <-> no_roles_sentinel ∈ roles_any).
  { intros roles_any. unfold roles_accepted, bind, lift. rewrite Hcur.
    split.
    - intros E. injection E as E.
      apply accepted_ok in E as (r & Hr1 & Hr2).
      apply elem_of_singleton in Hr2. now subst r.
    - intros Hin. f_equal. apply accepted_ok.
      exists no_roles_sentinel.
      split; [exact Hin | now apply elem_of_singleton]. }
  split; [exact Hcur |]. split; [exact Hreq |]. split; [exact Hacc |].
  split.
  - apply Hreq. intros r Hr. now apply elem_of_nil in Hr.
  - unfold roles_accepted, bind, lift. rewrite Hcur.
    destruct (accepted [] {[no_roles_sentinel]}) as [[]|e] eqn:E.
    + apply accepted_ok in E as (r & Hr & _). now apply elem_of_nil in Hr.
    + unfold accepted, require_condition in E.
      destruct (bool_decide _); [discriminate | now injection E as <-].
Qed.

Lemma no_role_claim_rolenames_witness :
  let d : gmap string jval := {[ "id" := JInt 1 ]} in
  let ctx : gmap string pyval := {[ "jwt_data" := PyDict d ]} in
  current_rolenames ctx = (Ok {[ no_roles_sentinel ]}, ctx)
  /\ roles_required [] ctx = (Ok tt, ctx)
  /\ roles_accepted [] ctx = (Raise MissingRoleError, ctx).
Proof.
  intros d ctx.
  destruct (no_role_claim_rolenames d ctx) as (H1 & _ & _ & H2 & H3);
    [reflexivity | reflexivity |].
  split; [exact H1 | split; [exact H2 | exact H3]].
Defined.

(** C1, as stated, fails on the code: token data with an id and no role
    claim does not give the empty role set; [accepted] does not succeed on
    the empty requirement list, and [required] succeeds on a list that is
    not empty. *)
Lemma no_role_claim_is_not_empty_set :
  let d : gmap string jval := {[ "id" := JInt 1 ]} in
  let ctx : gmap string pyval := {[ "jwt_data" := PyDict d ]} in
  d !! "rls" = None
  /\ current_rolenames ctx <> (Ok ∅, ctx)
  /\ roles_accepted [] ctx <> (Ok tt, ctx)
  /\ roles_required [no_roles_sentinel] ctx = (Ok tt, ctx).
Proof.
  intros d ctx. split; [reflexivity |]. split; [| split].
  - intros E. vm_compute in E. discriminate E.
  - intros E. vm_compute in E. discriminate E.
  - vm_compute. reflexivity.
Qed.

(** C7: when the role claim is text, the role set that [current_rolenames]
    recovers is the set of the comma-separated entries of that text, each
    with the whitespace around it trimmed; the claim value
    ["admin, operator"] gives exactly the roles admin and operator. *)
Theorem rolenames_of_comma_joined_claim (d : gmap string jval)
    (ctx : gmap string pyval) (rls : string) :
  ctx !! "jwt_data" = Some (PyDict d) -> d !! "rls" = Some (JStr rls) ->
  (exists es ts : list string,
      comma_entries rls es
      /\ Forall2 trimmed_of es ts
      /\ current_rolenames ctx = (Ok (list_to_set ts), ctx))
  /\ (forall es ts : list string,
        comma_entries rls es -> Forall2 trimmed_of es ts ->
        current_rolenames ctx = (Ok (list_to_set ts), ctx))
  /\ (rls = "admin, operator" ->
      current_rolenames ctx = (Ok {[ "admin"; "operator" ]}, ctx)).
Proof.
  intros Hctx Hd.
  pose proof (current_rolenames_text d ctx rls Hctx Hd) as Hcur.
  split; [| split].
  - exists (PyStr.split "," rls), (PyStr.strip <$> PyStr.split "," rls).
    split; [apply split_comma_entries | split; [| exact Hcur]].
    clear. induction (PyStr.split "," rls) as [|e es IH]; simpl;
      constructor; [apply strip_trimmed | exact IH].
  - intros es ts Hes Hts. rewrite Hcur.
    rewrite (comma_entries_unique rls _ es (split_comma_entries rls) Hes).
    assert (Hstrip : PyStr.strip <$> es = ts); [| now rewrite Hstrip].
    clear -Hts. induction Hts as [|e t es ts He _ IH]; [reflexivity |].
    rewrite fmap_cons. now rewrite IH, (trimmed_of_strip e t He).
  - intros ->. rewrite Hcur. f_equal.
Qed.

Lemma rolenames_of_comma_joined_claim_witness :
  let d : gmap string jval := {[ "rls" := JStr "admin, operator" ]} in
  let ctx : gmap string pyval := {[ "jwt_data" := PyDict d ]} in
  current_rolenames ctx = (Ok {[ "admin"; "operator" ]}, ctx).
Proof.
  intros d ctx.
  destruct (rolenames_of_comma_joined_claim d ctx "admin, operator")
    as (_ & _ & H); [reflexivity | reflexivity |].
  exact (H eq_refl).
Defined.

(** C9: a user whose [roles] column is the empty text, the default of the
    model, has the role list that holds the empty role name and nothing
    else, not the empty list; such is every user created without roles. *)
Theorem rolenames_of_empty_roles (u : Example.User) :
  Example.roles u = Some "" ->
  Example.rolenames u = [""]
  /\ Example.rolenames u <> []
  /\ (forall id username email password,
        Example.rolenames (Example.create id username email password) = [""]).
Proof.
  intros Hroles. unfold Example.rolenames. rewrite Hroles.
  split; [reflexivity | split; [discriminate | reflexivity]].
Qed.

Lemma rolenames_of_empty_roles_witness :
  Example.rolenames
    (Example.create 1 "the_dude" "the_dude@praetorian.test.io" "abides")
  = [""].
Proof.
  destruct (rolenames_of_empty_roles
              (Example.create 1 "the_dude" "the_dude@praetorian.test.io"
                 "abides"))
    as [H _]; [reflexivity | exact H].
Defined.

(** ** TOTP replay protection *)

Section EngineProperties.

Import Models.

Variable verify_password : string -> string -> bool.
Variable expected_code : string -> Z -> string.
Variable window : Z.

Lemma beyond_trans (last : option Z) (c c' : Z) :
  beyond last c = true -> (c < c')%Z -> beyond last c' = true.
Proof.
  destruct last as [l|]; simpl; [| reflexivity].
  rewrite !Z.ltb_lt. lia.
Qed.

Lemma totp_verify_accepts (secret code : string) (last : option Z)
    (now : Z) (new : option Z) :
  totp_verify expected_code window secret code last now = (true, new) ->
  exists c, new = Some c
            /\ In c (candidates window now)
            /\ expected_code secret c = code
            /\ beyond last c = true.
Proof.
  unfold totp_verify.
  destruct (List.find _ _) as [c|] eqn:E; [| discriminate].
  intros [= <-]. apply find_some in E as [Hin Hc].
  apply andb_prop in Hc as [Hcode Hb]. apply String.eqb_eq in Hcode.
  now exists c.
Qed.

Lemma totp_verify_rejects (secret code : string) (last : option Z)
    (now : Z) (new : option Z) :
  totp_verify expected_code window secret code last now = (false, new) ->
  new = None
  /\ forall c, In c (candidates window now) ->
               expected_code secret c = code -> beyond last c = false.
Proof.
  unfold totp_verify.
  destruct (List.find _ _) as [c|] eqn:E; [discriminate |].
  intros [= <-]. split; [reflexivity |]. intros c Hin Hcode.
  pose proof (find_none _ _ E c Hin) as Hc. cbv beta in Hc.
  apply String.eqb_eq in Hcode. rewrite Hcode in Hc. exact Hc.
Qed.

(** One verify operation: acceptance needs a matched counter beyond the
    stored one and stores it; rejection leaves the principal as it was. *)
Lemma verify_and_persist_step (user : TotpUser) (code : string) (now : Z) :
  match verify_and_persist expected_code window user code now with
  | ((true, new), user') =>
      exists c, new = Some c
                /\ beyond (get_cache_verify user) c = true
                /\ get_cache_verify user' = Some c
                /\ totp user' = totp user
                /\ (exists secret, totp user = Some secret
                                   /\ expected_code secret c = code)
  | ((false, new), user') => new = None /\ user' = user
  end.
Proof.
  unfold verify_and_persist.
  destruct (totp user) as [secret|] eqn:Es; [| split; reflexivity].
  destruct (totp_verify expected_code window secret code
              (get_cache_verify user) now) as [[|] new] eqn:E; simpl.
  - apply totp_verify_accepts in E as (c & -> & _ & Hcode & Hb).
    exists c. repeat split; try assumption. now exists secret.
  - apply totp_verify_rejects in E as [-> _]. split; reflexivity.
Qed.

Lemma run_verifies_beyond (ops : list (string * Z)) :
  forall (user : TotpUser) (i : nat) (c : Z),
    run_verifies expected_code window user ops !! i = Some (true, Some c) ->
    beyond (get_cache_verify user) c = true.
Proof.
  induction ops as [|[code now] rest IH]; intros user i c Hi;
    [discriminate |].
  cbn [run_verifies] in Hi.
  pose proof (verify_and_persist_step user code now) as Hstep.
  destruct (verify_and_persist expected_code window user code now)
    as [[ok new] user'].
  destruct i as [|i]; simpl in Hi.
  - injection Hi as -> ->.
    destruct Hstep as (c' & [= <-] & Hb & _). exact Hb.
  - specialize (IH user' i c Hi). destruct ok.
    + destruct Hstep as (c' & _ & Hb & Hlast & _).
      rewrite Hlast in IH. simpl in IH. apply Z.ltb_lt in IH.
      now apply beyond_trans with (c := c').
    + destruct Hstep as [_ ->]. exact IH.
Qed.

Lemma run_verifies_increasing (ops : list (string * Z)) :
  forall (user : TotpUser) (i j : nat) (ci cj : Z),
    (i < j)%nat ->
    run_verifies expected_code window user ops !! i = Some (true, Some ci) ->
    run_verifies expected_code window user ops !! j = Some (true, Some cj) ->
    (ci < cj)%Z.
Proof.
  induction ops as [|[code now] rest IH]; intros user i j ci cj Hij Hi Hj;
    [discriminate |].
  cbn [run_verifies] in Hi, Hj.
  pose proof (verify_and_persist_step user code now) as Hstep.
  destruct (verify_and_persist expected_code window user code now)
    as [[ok new] user'].
  destruct j as [|j]; [lia |]. simpl in Hj.
  destruct i as [|i]; simpl in Hi.
  - injection Hi as -> ->.
    destruct Hstep as (c' & [= <-] & _ & Hlast & _).
    pose proof (run_verifies_beyond rest user' j cj Hj) as Hb.
    rewrite Hlast in Hb. simpl in Hb. now apply Z.ltb_lt in Hb.
  - apply (IH user' i j ci cj); [lia | exact Hi | exact Hj].
Qed.

(** C2: in every sequence of verify operations on a principal, a code is
    accepted only at a matched counter strictly greater than the stored
    last counter (or when none is stored), the matched counter is then the
    stored last counter, a rejected code changes nothing, and once a
    counter has been accepted every counter accepted later is strictly
    greater: the same or an earlier counter is never accepted again. *)
Theorem totp_counter_moves_forward (user : TotpUser)
    (ops : list (string * Z)) :
  (forall code now,
      match verify_and_persist expected_code window user code now with
      | ((true, new), user') =>
          exists c, new = Some c
                    /\ beyond (get_cache_verify user) c = true
                    /\ get_cache_verify user' = Some c
      | ((false, new), user') => new = None /\ user' = user
      end)
  /\ (forall i c,
        run_verifies expected_code window user ops !! i = Some (true, Some c) ->
        match get_cache_verify user with
        | Some last => (last < c)%Z
        | None => True
        end)
  /\ (forall i j ci cj,
        (i < j)%nat ->
        run_verifies expected_code window user ops !! i
        = Some (true, Some ci) ->
        run_verifies expected_code window user ops !! j
        = Some (true, Some cj) ->
        (ci < cj)%Z).
Proof.
  split; [| split].
  - intros code now.
    pose proof (verify_and_persist_step user code now) as Hstep.
    destruct (verify_and_persist expected_code window user code now)
      as [[[|] new] user'].
    + destruct Hstep as (c & ? & ? & ? & _). now exists c.
    + exact Hstep.
  - intros i c Hi. apply run_verifies_beyond in Hi.
    destruct (get_cache_verify user); [now apply Z.ltb_lt in Hi | exact I].
  - apply run_verifies_increasing.
Qed.

(** C3: an identifier that matches no stored principal and a known
    identifier with a wrong password end in the same error, the generic
    [AuthenticationError], with the store untouched in both runs: the answer
    does not tell the two causes apart. *)
Theorem authenticate_failure_is_generic (table : list TotpUser)
    (unknown password1 : string) (code1 : option string) (now1 : Z)
    (known password2 : string) (code2 : option string) (now2 : Z)
    (user : TotpUser) :
  lookup table (Some unknown) None = None ->
  lookup table (Some known) None = Some user ->
  verify_password password2 (user_password user) = false ->
  let login := authenticate verify_password expected_code window table in
  login unknown password1 code1 now1 = (Raise AuthenticationError, table)
  /\ login known password2 code2 now2 = (Raise AuthenticationError, table)
  /\ login unknown password1 code1 now1 = login known password2 code2 now2.
Proof.
  intros Hnone Hsome Hpw login.
  assert (H1 : login unknown password1 code1 now1
               = (Raise AuthenticationError, table)).
  { unfold login, authenticate. now rewrite Hnone. }
  assert (H2 : login known password2 code2 now2
               = (Raise AuthenticationError, table)).
  { unfold login, authenticate. now rewrite Hsome, Hpw. }
  split; [exact H1 | split; [exact H2 | congruence]].
Qed.

End EngineProperties.

Lemma totp_counter_moves_forward_witness :
  run_verifies mock_code 1 the_dude [("mock-even", 6%Z); ("mock-even", 6%Z)]
  = [(true, Some 6%Z); (false, None)]
  /\ (5 < 6)%Z.
Proof.
  split; [reflexivity |].
  exact (proj1 (proj2 (totp_counter_moves_forward mock_code 1 the_dude
                         [("mock-even", 6%Z); ("mock-even", 6%Z)]))
               0%nat 6%Z eq_refl).
Defined.

Lemma authenticate_failure_is_generic_witness :
  authenticate String.eqb mock_code 1 [the_dude] "the_bro" "abides" None 6
  = authenticate String.eqb mock_code 1 [the_dude] "the_dude" "is_undudelike"
      None 6.
Proof.
  apply (authenticate_failure_is_generic String.eqb mock_code 1 [the_dude]
           "the_bro" "abides" None 6 "the_dude" "is_undudelike" None 6
           the_dude); reflexivity.
Defined.

(** ** Duration parsing *)

Lemma repeat_one_char (p : ascii -> bool) (s : string) :
  forall fuel g k, (String.length s <= fuel)%nat ->
    Re.repeat (Re.one_char p) fuel s g k = backtrack p s g k.
Proof.
  induction s as [|a s IH]; intros fuel g k Hfuel.
  - destruct fuel; reflexivity.
  - destruct fuel as [|fuel]; [simpl in Hfuel; lia |].
    simpl in Hfuel. cbn [Re.repeat Re.one_char backtrack].
    destruct (p a); [| reflexivity].
    replace (String.length s <? String.length (String a s))%nat with true
      by (symmetry; apply Nat.ltb_lt; simpl; lia).
    rewrite IH by lia. reflexivity.
Qed.

Lemma backtrack_greedy (p : ascii -> bool) (s : string) g k m :
  k (PyStr.drop_while p s) g = Some m -> backtrack p s g k = Some m.
Proof.
  induction s as [|a s IH]; simpl; [easy |].
  destruct (p a); [| easy]. intros H. now rewrite (IH H).
Qed.

Lemma backtrack_blocked (p : ascii -> bool) (s : string) g (k : Re.cont) :
  (forall a s' g', p a = true -> k (String a s') g' = None) ->
  backtrack p s g k = k (PyStr.drop_while p s) g.
Proof.
  intros Hk. induction s as [|a s IH]; simpl; [reflexivity |].
  destruct (p a) eqn:E; [| reflexivity].
  rewrite IH. destruct (k (PyStr.drop_while p s) g); [reflexivity |].
  now apply Hk.
Qed.

Lemma exec_star_class (lo hi : ascii) (s : string) g k :
  Re.exec (Re.Star (Re.Range lo hi)) s g k
  = backtrack (PyStr.in_range (PyStr.code lo) (PyStr.code hi)) s g k.
Proof.
  cbn [Re.exec].
  change (Re.exec (Re.Range lo hi))
    with (Re.one_char (PyStr.in_range (PyStr.code lo) (PyStr.code hi))).
  now apply repeat_one_char.
Qed.

Lemma exec_plus_digit (s : string) g k :
  Re.exec (Re.Plus Re.Digit) s g k
  = match s with
    | String a s' =>
        if PyStr.isdigit a then backtrack PyStr.isdigit s' g k else None
    | EmptyString => None
    end.
Proof.
  cbn [Re.exec]. change (Re.exec Re.Digit) with (Re.one_char PyStr.isdigit).
  destruct s as [|a s]; [reflexivity |]. cbn [Re.one_char].
  destruct (PyStr.isdigit a); [| reflexivity].
  now apply repeat_one_char.
Qed.

Lemma exec_lits (unit : string) (r : Re.regex) (s : string) g k :
  Re.exec (lits unit r) s g k
  = match after_prefix unit s with
    | Some s' => Re.exec r s' g k
    | None => None
    end.
Proof.
  revert s. induction unit as [|c u IH]; intros s; [reflexivity |].
  cbn [lits Re.exec after_prefix]. destruct s as [|a s]; [reflexivity |].
  cbn [Re.one_char]. destruct (Ascii.eqb c a); [apply IH | reflexivity].
Qed.

Lemma length_drop_while (p : ascii -> bool) (s : string) :
  String.length s
  = (String.length (PyStr.take_while p s)
     + String.length (PyStr.drop_while p s))%nat.
Proof.
  induction s as [|a s IH]; simpl; [reflexivity |].
  destruct (p a); simpl; lia.
Qed.

Lemma take_take_while (p : ascii -> bool) (s : string) :
  PyStr.take (String.length (PyStr.take_while p s)) s = PyStr.take_while p s.
Proof.
  induction s as [|a s IH]; simpl; [reflexivity |].
  destruct (p a); simpl; [now rewrite IH | reflexivity].
Qed.

Lemma consumed_drop_while (p : ascii -> bool) (s : string) :
  Re.consumed s (PyStr.drop_while p s) = PyStr.take_while p s.
Proof.
  unfold Re.consumed.
  replace (String.length s - String.length (PyStr.drop_while p s))%nat
    with (String.length (PyStr.take_while p s))
    by (pose proof (length_drop_while p s); lia).
  apply take_take_while.
Qed.

Lemma exec_opt r s g k :
  Re.exec (Re.Opt r) s g k
  = match Re.exec r s g k with Some m => Some m | None => k s g end.
Proof. reflexivity. Qed.

Lemma exec_cat r1 r2 s g k :
  Re.exec (Re.Cat r1 r2) s g k
  = Re.exec r1 s g (fun s' g' => Re.exec r2 s' g' k).
Proof. reflexivity. Qed.

Lemma exec_group_named n r s g k :
  Re.exec (Re.Group (Some n) r) s g k
  = Re.exec r s g (fun s' g' => k s' (<[n := Re.consumed s s']> g')).
Proof. reflexivity. Qed.

Lemma exec_group_plain r s g k :
  Re.exec (Re.Group None r) s g k = Re.exec r s g (fun s' g' => k s' g').
Proof. reflexivity. Qed.

Lemma after_prefix_digit (unit : string) (a : ascii) (s : string) :
  unit_prefix_ok unit -> PyStr.isdigit a = true ->
  after_prefix unit (String a s) = None.
Proof.
  destruct unit as [|c u]; simpl; [easy |]. intros Hc Ha.
  destruct (Ascii.eqb_spec c a) as [-> |]; [congruence | reflexivity].
Qed.

Lemma exec_unit_body (name unit : string) (s : string) g (k : Re.cont) :
  unit_prefix_ok unit -> total k ->
  Re.exec (Re.Group None
             (Re.Cat (Re.Group (Some name) (Re.Plus Re.Digit))
                     (lits unit (Re.Star (Re.Range "a" "z"))))) s g k
  = match scan_group unit s with
    | Some (ds, s') => k s' (<[name := ds]> g)
    | None => None
    end.
Proof.
  intros Hunit Hk.
  rewrite exec_group_plain, exec_cat, exec_group_named, exec_plus_digit.
  unfold scan_group.
  destruct s as [|a s]; [reflexivity |].
  cbn [PyStr.take_while PyStr.drop_while].
  destruct (PyStr.isdigit a) eqn:Ea; [| reflexivity].
  rewrite backtrack_blocked.
  2:{ intros b t g' Hb. rewrite exec_lits.
      now rewrite after_prefix_digit. }
  replace (Re.consumed (String a s) (PyStr.drop_while PyStr.isdigit s))
    with (String a (PyStr.take_while PyStr.isdigit s)).
  2:{ pose proof (consumed_drop_while PyStr.isdigit (String a s)) as E.
      simpl in E. rewrite Ea in E. now rewrite E. }
  rewrite exec_lits.
  destruct (after_prefix unit (PyStr.drop_while PyStr.isdigit s)) as [r|];
    [| reflexivity].
  rewrite exec_star_class.
  destruct (Hk (PyStr.drop_while is_lower_az r)
               (<[name := String a (PyStr.take_while PyStr.isdigit s)]> g))
    as [m Hm].
  rewrite Hm. now apply backtrack_greedy.
Qed.

Lemma unit_group_runs (name unit : string) :
  unit_prefix_ok unit -> runs_as (unit_group name unit) (scan_step name unit).
Proof.
  intros Hunit k Hk s g. unfold unit_group, scan_step.
  rewrite exec_opt, exec_unit_body by assumption.
  destruct (scan_group unit s) as [[ds s']|]; [| reflexivity].
  simpl. now destruct (Hk s' (<[name := ds]> g)) as [m ->].
Qed.

Lemma runs_as_cat r1 r2 F1 F2 :
  runs_as r1 F1 -> runs_as r2 F2 ->
  runs_as (Re.Cat r1 r2) (fun s g => F2 (F1 s g).2 (F1 s g).1).
Proof.
  intros H1 H2 k Hk s g. rewrite exec_cat.
  rewrite H1.
  - now apply H2.
  - intros s' g'. rewrite H2 by assumption. apply Hk.
Qed.

Lemma runs_as_ext r F F' :
  runs_as r F -> (forall s g, F s g = F' s g) -> runs_as r F'.
Proof. intros H E k Hk s g. rewrite <- E. now apply H. Qed.

Lemma capture_pass_cons (name unit : string) rest t g :
  capture_pass ((name, unit) :: rest) t g
  = capture_pass rest (scan_step name unit t g).2 (scan_step name unit t g).1.
Proof.
  unfold scan_step. cbn [capture_pass].
  now destruct (scan_group unit t) as [[ds t']|].
Qed.

Lemma duration_pattern_runs :
  runs_as duration_pattern (capture_pass unit_groups).
Proof.
  unfold duration_pattern.
  eapply runs_as_ext.
  - repeat (apply runs_as_cat; [apply unit_group_runs; reflexivity |]).
    apply unit_group_runs; reflexivity.
  - intros s g. unfold unit_groups. rewrite !capture_pass_cons.
    cbn [capture_pass]. now destruct (scan_step "seconds" "s" _ _).
Qed.

Lemma match_duration_pattern (t : string) :
  Re.match_ duration_pattern t
  = Some {| Re.m_groups := (capture_pass unit_groups t ∅).1;
            Re.m_rest := (capture_pass unit_groups t ∅).2 |}.
Proof.
  unfold Re.match_. rewrite duration_pattern_runs; [reflexivity |].
  intros s g. eexists. reflexivity.
Qed.

Lemma clean_of_lookup (G : gmap string string) (names : list string)
    (k : string) :
  forall d : gmap string Z,
    foldl (fun (d : gmap string Z) (kv : string * option string) =>
             match kv.2 with
             | Some v => if PyStr.truthy v then <[kv.1 := PyStr.int v]> d else d
             | None => d
             end) d ((fun n => (n, G !! n)) <$> names) !! k
    = if decide (k ∈ names)
      then match field_of (G !! k) with Some z => Some z | None => d !! k end
      else d !! k.
Proof.
  induction names as [|n ns IH]; intros d; [reflexivity |].
  cbn [fmap list_fmap foldl]. rewrite IH. cbn [fst snd].
  destruct (decide (k = n)) as [-> | Hne].
  - rewrite (decide_True (P := n ∈ n :: ns)) by apply list_elem_of_here.
    unfold field_of.
    destruct (G !! n) as [v|]; [destruct (PyStr.truthy v) |];
      rewrite ?lookup_insert_eq; now destruct (decide (n ∈ ns)).
  - assert (Hd : match G !! n with
                 | Some v =>
                     if PyStr.truthy v then <[n := PyStr.int v]> d else d
                 | None => d
                 end !! k = d !! k).
    { destruct (G !! n) as [v|]; [destruct (PyStr.truthy v) |];
        rewrite ?lookup_insert_ne by congruence; reflexivity. }
    rewrite Hd.
    destruct (decide (k ∈ ns)) as [Hin | Hnin].
    + now rewrite decide_True by (now apply list_elem_of_further).
    + rewrite decide_False; [reflexivity |].
      intros [E | Hin]%elem_of_cons; [congruence | contradiction].
Qed.

Lemma single_pass_captures (groups : list (string * string)) :
  forall t (g : gmap string string),
    single_pass groups t (PyStr.int <$> g)
    = (PyStr.int <$> (capture_pass groups t g).1, (capture_pass groups t g).2).
Proof.
  induction groups as [|[name unit] rest IH]; intros t g; [reflexivity |].
  cbn [single_pass capture_pass].
  destruct (scan_group unit t) as [[ds t']|]; [| apply IH].
  rewrite <- IH. now rewrite fmap_insert.
Qed.

Lemma scan_group_digits (unit t ds t' : string) :
  scan_group unit t = Some (ds, t') ->
  PyStr.all_chars PyStr.isdigit ds = true /\ PyStr.truthy ds = true.
Proof.
  unfold scan_group. pose proof (take_while_all PyStr.isdigit t) as Hall.
  destruct (PyStr.take_while PyStr.isdigit t) as [|a ds0]; [discriminate |].
  destruct (after_prefix unit _); [| discriminate].
  intros [= <- <-]. split; [exact Hall | reflexivity].
Qed.

Lemma capture_pass_lookup (groups : list (string * string)) :
  forall t (g : gmap string string) k v,
    (capture_pass groups t g).1 !! k = Some v ->
    g !! k = Some v
    \/ (k ∈ groups.*1 /\ PyStr.truthy v = true
        /\ PyStr.all_chars PyStr.isdigit v = true).
Proof.
  induction groups as [|[name unit] rest IH]; intros t g k v Hk;
    [left; exact Hk |].
  cbn [capture_pass] in Hk.
  destruct (scan_group unit t) as [[ds t']|] eqn:E.
  - apply IH in Hk as [Hk | [Hin Hv]].
    + destruct (decide (name = k)) as [-> | Hne].
      * rewrite lookup_insert_eq in Hk. injection Hk as <-.
        right. split; [apply list_elem_of_here |].
        apply scan_group_digits in E as [? ?]. now split.
      * rewrite lookup_insert_ne in Hk by assumption. now left.
    + right. split; [now apply list_elem_of_further | exact Hv].
  - apply IH in Hk as [Hk | [Hin Hv]]; [now left |].
    right. split; [now apply list_elem_of_further | exact Hv].
Qed.

Lemma group_names_duration_pattern :
  Re.group_names duration_pattern = unit_groups.*1.
Proof. reflexivity. Qed.

Lemma parse_fields_captures (t : string) :
  (single_pass unit_groups t ∅).1
  = PyStr.int <$> (capture_pass unit_groups t ∅).1.
Proof.
  rewrite <- (fmap_empty PyStr.int) at 1.
  now rewrite single_pass_captures.
Qed.

Lemma clean_of_groupdict (t : string) (m : Re.Match) :
  Re.match_ duration_pattern t = Some m ->
  clean_of (Re.groupdict duration_pattern m) = (single_pass unit_groups t ∅).1
  /\ Re.m_groups m = (capture_pass unit_groups t ∅).1.
Proof.
  intros Hm. rewrite match_duration_pattern in Hm.
  rewrite parse_fields_captures.
  pose proof (capture_pass_lookup unit_groups t ∅) as Hinv.
  set (G := (capture_pass unit_groups t ∅).1) in *. clearbody G.
  injection Hm as <-. split; [| reflexivity].
  unfold Re.groupdict, clean_of. cbn [Re.m_groups].
  rewrite group_names_duration_pattern.
  apply map_eq. intros k. rewrite clean_of_lookup, lookup_fmap, lookup_empty.
  destruct (G !! k) as [v|] eqn:E.
  - apply Hinv in E as [E | (Hin & Hv & _)]; [now rewrite lookup_empty in E |].
    rewrite decide_True by assumption. unfold field_of. now rewrite Hv.
  - unfold field_of. now destruct (decide _).
Qed.

Lemma int_acc_nonneg (s : string) :
  forall acc, (0 <= acc)%Z -> PyStr.all_chars PyStr.isdigit s = true ->
              (0 <= PyStr.int_acc acc s)%Z.
Proof.
  induction s as [|c s IH]; intros acc Hacc Hs; [exact Hacc |].
  simpl in Hs. apply andb_prop in Hs as [Hc Hs]. cbn [PyStr.int_acc].
  apply IH; [| exact Hs].
  unfold PyStr.isdigit, PyStr.in_range in Hc. apply andb_prop in Hc as [Hc _].
  apply N.leb_le in Hc. unfold PyStr.digit_value. lia.
Qed.

Lemma while_digits (ds r : string) :
  PyStr.all_chars PyStr.isdigit ds = true -> no_leading_digit r ->
  PyStr.take_while PyStr.isdigit (ds ++ r) = ds
  /\ PyStr.drop_while PyStr.isdigit (ds ++ r) = r.
Proof.
  intros Hds Hr. induction ds as [|a ds IH].
  - rewrite append_empty_l. destruct r as [|c r]; [split; reflexivity |].
    simpl in *. now rewrite Hr.
  - simpl in Hds. apply andb_prop in Hds as [Ha Hds].
    destruct (IH Hds) as [IH1 IH2]. rewrite append_cons. simpl.
    rewrite Ha. now rewrite IH1, IH2.
Qed.

Lemma scan_group_number (unit ds r : string) :
  ds <> "" -> PyStr.all_chars PyStr.isdigit ds = true -> no_leading_digit r ->
  scan_group unit (ds ++ r)
  = match after_prefix unit r with
    | Some r' => Some (ds, PyStr.drop_while is_lower_az r')
    | None => None
    end.
Proof.
  intros Hne Hds Hr. unfold scan_group.
  destruct (while_digits ds r Hds Hr) as [-> ->].
  destruct ds; [congruence | reflexivity].
Qed.

Lemma single_pass_lookup_other (groups : list (string * string))
    (name : string) :
  name ∉ groups.*1 ->
  forall t d, (single_pass groups t d).1 !! name = d !! name.
Proof.
  induction groups as [|[n u] rest IH]; intros Hnot t d; [reflexivity |].
  apply not_elem_of_cons in Hnot as [Hne Hnot]. simpl in Hne.
  cbn [single_pass]. destruct (scan_group u t) as [[ds t']|].
  - rewrite IH by assumption. now rewrite lookup_insert_ne.
  - now apply IH.
Qed.

Lemma single_pass_some (n u : string) rest t d ds t' :
  scan_group u t = Some (ds, t') ->
  single_pass ((n, u) :: rest) t d
  = single_pass rest t' (<[n := PyStr.int ds]> d).
Proof. intros E. cbn [single_pass]. now rewrite E. Qed.

Lemma single_pass_none (n u : string) rest t d :
  scan_group u t = None ->
  single_pass ((n, u) :: rest) t d = single_pass rest t d.
Proof. intros E. cbn [single_pass]. now rewrite E. Qed.

Lemma scan_group_other_unit (unit ds r : string) :
  ds <> "" -> PyStr.all_chars PyStr.isdigit ds = true -> no_leading_digit r ->
  after_prefix unit r = None -> scan_group unit (ds ++ r) = None.
Proof.
  intros Hne Hds Hr E. rewrite scan_group_number by assumption.
  now rewrite E.
Qed.

Lemma scan_group_this_unit (unit ds r r' : string) :
  ds <> "" -> PyStr.all_chars PyStr.isdigit ds = true -> no_leading_digit r ->
  after_prefix unit r = Some r' ->
  scan_group unit (ds ++ r) = Some (ds, PyStr.drop_while is_lower_az r').
Proof.
  intros Hne Hds Hr E. rewrite scan_group_number by assumption.
  now rewrite E.
Qed.

Ltac not_a_group :=
  cbn; rewrite !not_elem_of_cons; repeat split; try discriminate;
  apply not_elem_of_nil.

Lemma months_need_mo (t ds rest : string) :
  ds <> "" -> PyStr.all_chars PyStr.isdigit ds = true ->
  t = ds ++ "mo" ++ rest ->
  (single_pass unit_groups t ∅).1 !! "months" = Some (PyStr.int ds).
Proof.
  intros Hne Hds ->. unfold unit_groups.
  rewrite single_pass_none
    by (apply scan_group_other_unit; (assumption || reflexivity)).
  rewrite (single_pass_some "months" "mo" _ _ _ ds
             (PyStr.drop_while is_lower_az rest))
    by (apply scan_group_this_unit; (assumption || reflexivity)).
  rewrite single_pass_lookup_other by not_a_group.
  apply lookup_insert_eq.
Qed.

Lemma mo_needs_o (rest : string) :
  (forall rest', rest <> String "o" rest') ->
  after_prefix "mo" ("m" ++ rest) = None.
Proof.
  intros Hrest. change ("m" ++ rest) with (String "m" rest).
  cbn [after_prefix]. change (Ascii.eqb "m" "m") with true. cbv iota.
  destruct rest as [|b rest']; [reflexivity |]. cbn [after_prefix].
  destruct (Ascii.eqb_spec "o" b) as [<- |]; [| reflexivity].
  now destruct (Hrest rest').
Qed.

Lemma minutes_fall_back_to_m (t ds rest : string) :
  ds <> "" -> PyStr.all_chars PyStr.isdigit ds = true ->
  (forall rest', rest <> String "o" rest') ->
  t = ds ++ "m" ++ rest ->
  (single_pass unit_groups t ∅).1 !! "minutes" = Some (PyStr.int ds)
  /\ (single_pass unit_groups t ∅).1 !! "months" = None.
Proof.
  intros Hne Hds Hrest ->. unfold unit_groups.
  pose proof (mo_needs_o rest Hrest) as Ho.
  do 4 (rewrite single_pass_none
          by (apply scan_group_other_unit; (assumption || reflexivity))).
  rewrite (single_pass_some "minutes" "m" _ _ _ ds
             (PyStr.drop_while is_lower_az rest))
    by (apply scan_group_this_unit; (assumption || reflexivity)).
  rewrite !single_pass_lookup_other by not_a_group.
  split; [apply lookup_insert_eq | reflexivity].
Qed.

Section DurationProperties.

Context {Duration : Type}.
Variable pendulum_duration : gmap string Z -> option Duration.


Lemma duration_from_string_in_words (text : string) :
  duration_from_string pendulum_duration text
  = parse_in_words pendulum_duration text.
Proof.
  unfold duration_from_string, parse_in_words, parse_fields.
  destruct (Re.match_ duration_pattern (normalize text)) as [m|] eqn:E.
  - apply clean_of_groupdict in E as [-> _]. reflexivity.
  - now rewrite match_duration_pattern in E.
Qed.

Lemma match_then_fields (text : string) :
  exists m,
    Re.match_ duration_pattern (normalize text) = Some m
    /\ clean_of (Re.groupdict duration_pattern m) = parse_fields text
    /\ parse_fields text = PyStr.int <$> Re.m_groups m
    /\ (forall k v, Re.m_groups m !! k = Some v ->
          k ∈ unit_groups.*1 /\ v <> ""
          /\ PyStr.all_chars PyStr.isdigit v = true).
Proof.
  destruct (Re.match_ duration_pattern (normalize text)) as [m|] eqn:E;
    [| now rewrite match_duration_pattern in E].
  exists m. split; [reflexivity |].
  destruct (clean_of_groupdict _ _ E) as [Hclean Hgroups].
  split; [exact Hclean |]. unfold parse_fields.
  split; [now rewrite Hgroups, parse_fields_captures |].
  intros k v Hk. rewrite Hgroups in Hk.
  apply capture_pass_lookup in Hk as [Hk | (Hin & Hv & Hd)];
    [now rewrite lookup_empty in Hk |].
  split; [exact Hin | split; [| exact Hd]]. now destruct v.
Qed.

Lemma duration_checks (text : string) :
  exists m,
    Re.match_ duration_pattern (normalize text) = Some m
    /\ ((forall name, Re.m_groups m !! name = None) ->
        duration_from_string pendulum_duration text = Raise ConfigurationError)
    /\ (forall name v,
          Re.m_groups m !! name = Some v ->
          v <> ""
          /\ duration_from_string pendulum_duration text
             = match pendulum_duration
                       (clean_of (Re.groupdict duration_pattern m)) with
               | Some d => Ok d
               | None => Raise ConfigurationError
               end).
Proof.
  destruct (match_then_fields text) as (m & Hm & Hclean & Hfields & Hcap).
  exists m. split; [exact Hm |].
  unfold duration_from_string. rewrite Hm. cbv zeta.
  rewrite Hclean, Hfields. split.
  - intros Hnone. rewrite bool_decide_eq_true_2; [reflexivity |].
    apply fmap_empty_iff, map_empty. exact Hnone.
  - intros name v Hv. split; [now apply (Hcap name v) |].
    rewrite bool_decide_eq_false_2; [reflexivity |].
    intros Hempty. apply fmap_empty_iff in Hempty.
    rewrite Hempty, lookup_empty in Hv. discriminate.
Qed.

(** C8: on every text the match of the duration pattern succeeds, every
    unit group being optional, so the first check, which asks for a match
    object, never raises.  The two checks raise exactly when no group
    captured anything; when a group did, and a capture is never empty, they
    pass and [clean] goes to the constructor. *)
Theorem duration_match_never_fails (text : string) :
  (forall t, is_Some (Re.match_ duration_pattern t))
  /\ exists m,
       Re.match_ duration_pattern (normalize text) = Some m
       /\ ((forall name, Re.m_groups m !! name = None) ->
           duration_from_string pendulum_duration text
           = Raise ConfigurationError)
       /\ (forall name v,
             Re.m_groups m !! name = Some v ->
             v <> ""
             /\ duration_from_string pendulum_duration text
                = match pendulum_duration
                          (clean_of (Re.groupdict duration_pattern m)) with
                  | Some d => Ok d
                  | None => Raise ConfigurationError
                  end).
Proof.
  split; [intros t; rewrite match_duration_pattern; now eexists |].
  apply duration_checks.
Qed.

(** C6: a parse that succeeds handed the constructor a map that is not
    empty: it has a field, of one of the six units and not negative.  A text
    in which no unit group captures a value raises [ConfigurationError]; it
    never gives a duration, the zero duration included. *)
Theorem parsed_duration_has_a_field (text : string) :
  (forall d,
      duration_from_string pendulum_duration text = Ok d ->
      exists m clean name z,
        Re.match_ duration_pattern (normalize text) = Some m
        /\ clean = clean_of (Re.groupdict duration_pattern m)
        /\ clean <> ∅
        /\ clean !! name = Some z /\ name ∈ unit_groups.*1 /\ (0 <= z)%Z
        /\ pendulum_duration clean = Some d)
  /\ (forall m,
        Re.match_ duration_pattern (normalize text) = Some m ->
        (forall name, Re.m_groups m !! name = None) ->
        duration_from_string pendulum_duration text = Raise ConfigurationError).
Proof.
  destruct (match_then_fields text) as (m & Hm & Hclean & Hfields & Hcap).
  split.
  - intros d Hd. unfold duration_from_string in Hd.
    rewrite Hm in Hd. cbv zeta in Hd.
    case_bool_decide as Hne; [discriminate |].
    destruct (pendulum_duration _) as [d'|] eqn:Hpd; [| discriminate].
    injection Hd as <-.
    destruct (map_choose _ Hne) as (name & z & Hz).
    exists m, (clean_of (Re.groupdict duration_pattern m)), name, z.
    split; [exact Hm |]. split; [reflexivity |]. split; [exact Hne |].
    split; [exact Hz |].
    rewrite Hclean, Hfields, lookup_fmap in Hz.
    destruct (Re.m_groups m !! name) as [v|] eqn:Hv; [| discriminate].
    injection Hz as <-. destruct (Hcap name v Hv) as (Hin & _ & Hd).
    split; [exact Hin |]. split; [| exact Hpd].
    now apply int_acc_nonneg.
  - intros m' Hm' Hnone.
    destruct (duration_checks text) as (m0 & Hm0 & H0 & _).
    rewrite Hm' in Hm0. injection Hm0 as <-. now apply H0.
Qed.

(** C5: the parser is the single pass of the specification: the text is
    normalized (spaces and commas removed, lower case), the unit groups are
    tried once each in the order years, months, days, hours, minutes,
    seconds, and a group that does not match is left out of the map.  The
    months group takes a number followed by [mo] and refuses a number
    followed by [m] without [o], which the minutes group takes; so where the
    pass begins, a number followed by [mo] goes to months, and a number
    followed by [m] without [o] goes to minutes and leaves months out. *)
Theorem duration_single_pass (text : string) :
  duration_from_string pendulum_duration text
  = parse_in_words pendulum_duration text
  /\ (forall ds rest,
        ds <> "" -> PyStr.all_chars PyStr.isdigit ds = true ->
        scan_group "mo" (ds ++ "mo" ++ rest)
        = Some (ds, PyStr.drop_while is_lower_az rest))
  /\ (forall ds rest,
        ds <> "" -> PyStr.all_chars PyStr.isdigit ds = true ->
        (forall rest', rest <> String "o" rest') ->
        scan_group "mo" (ds ++ "m" ++ rest) = None
        /\ scan_group "m" (ds ++ "m" ++ rest)
           = Some (ds, PyStr.drop_while is_lower_az rest))
  /\ (forall ds rest,
        ds <> "" -> PyStr.all_chars PyStr.isdigit ds = true ->
        normalize text = ds ++ "mo" ++ rest ->
        parse_fields text !! "months" = Some (PyStr.int ds))
  /\ (forall ds rest,
        ds <> "" -> PyStr.all_chars PyStr.isdigit ds = true ->
        (forall rest', rest <> String "o" rest') ->
        normalize text = ds ++ "m" ++ rest ->
        parse_fields text !! "minutes" = Some (PyStr.int ds)
        /\ parse_fields text !! "months" = None)
  /\ normalize "7 Days, 45 Minutes" = "7days45minutes"
  /\ parse_fields "7 Days, 45 Minutes" = {[ "days" := 7%Z; "minutes" := 45%Z ]}.
Proof.
  split; [apply duration_from_string_in_words |].
  split; [| split; [| split; [| split; [| split; reflexivity]]]].
  - intros ds rest Hne Hds.
    now apply scan_group_this_unit.
  - intros ds rest Hne Hds Hrest. split.
    + apply scan_group_other_unit; [assumption .. | reflexivity |].
      now apply mo_needs_o.
    + now apply scan_group_this_unit.
  - intros ds rest Hne Hds Ht. unfold parse_fields.
    now apply months_need_mo with (rest := rest).
  - intros ds rest Hne Hds Hrest Ht. unfold parse_fields.
    now apply minutes_fall_back_to_m with (rest := rest).
Qed.

(** C4 does not hold of the code: in ["5 hours, 3 bananas"] the match ends
    before ["3bananas"], which is left unread; the parse does not raise for
    it and answers what it answers for ["5 hours"]. *)
Theorem trailing_fragment_is_ignored :
  Re.m_rest <$> Re.match_ duration_pattern (normalize "5 hours, 3 bananas")
  = Some "3bananas"
  /\ duration_from_string pendulum_duration "5 hours, 3 bananas"
     = match pendulum_duration {[ "hours" := 5%Z ]} with
       | Some d => Ok d
       | None => Raise ConfigurationError
       end
  /\ duration_from_string pendulum_duration "5 hours, 3 bananas"
     = duration_from_string pendulum_duration "5 hours".
Proof.
  split; [reflexivity |].
  rewrite !duration_from_string_in_words. unfold parse_in_words.
  replace (parse_fields "5 hours, 3 bananas")
    with ({[ "hours" := 5%Z ]} : gmap string Z) by reflexivity.
  replace (parse_fields "5 hours")
    with ({[ "hours" := 5%Z ]} : gmap string Z) by reflexivity.
  split; reflexivity.
Qed.

End DurationProperties.

Lemma duration_match_never_fails_witness :
  duration_from_string Some "12x1y1z" = Raise ConfigurationError.
Proof.
  destruct (duration_match_never_fails (Duration := gmap string Z) Some
              "12x1y1z") as (_ & m & Hm & Hnone & _).
  apply Hnone. intros name.
  vm_compute in Hm. injection Hm as <-.
  exact (lookup_empty (M := gmap string) (A := string) name).
Defined.

Lemma parsed_duration_has_a_field_witness :
  duration_from_string Some "" = Raise ConfigurationError.
Proof.
  apply (proj2 (parsed_duration_has_a_field (Duration := gmap string Z)
                  Some "")
           {| Re.m_groups := ∅; Re.m_rest := "" |}).
  - reflexivity.
  - intros name. apply lookup_empty.
Defined.

Lemma duration_single_pass_witness :
  parse_fields "2 Months 3 min" !! "months" = Some 2%Z
  /\ parse_fields "1y11d20m" !! "minutes" = Some 20%Z.
Proof.
  split.
  - destruct (duration_single_pass (Duration := gmap string Z) Some
                "2 Months 3 min") as (_ & _ & _ & H & _).
    apply (H "2" "nths3min"); [discriminate | reflexivity | reflexivity].
  - reflexivity.
Defined.

(** * Further properties *)


(** ** More on token data *)

Lemma add_sets (v : pyval) (ctx : gmap string pyval) :
  add_jwt_data_to_app_context v ctx = (Ok tt, <["jwt_data" := v]> ctx).
Proof. reflexivity. Qed.

Lemma has_jwt_data_spec (ctx : gmap string pyval) :
  app_context_has_jwt_data ctx
  = (Ok (bool_decide (is_Some (ctx !! "jwt_data"))), ctx).
Proof. reflexivity. Qed.

Lemma get_jwt_data_cases (ctx : gmap string pyval) :
  get_jwt_data_from_app_context ctx
  = match ctx !! "jwt_data" with
    | Some (PyDict d) => (Ok d, ctx)
    | _ => (Raise PraetorianError, ctx)
    end.
Proof.
  unfold get_jwt_data_from_app_context, bind, get_ctx, getattr.
  destruct (ctx !! "jwt_data") as [[|d]|]; reflexivity.
Qed.

(** X1: a later [add_jwt_data_to_app_context] replaces what an earlier one
    stored; removing after adding leaves no token data behind, and gives
    back the very context when it held none before. *)
Theorem add_replaces_and_remove_undoes (v1 v2 : pyval) (d : gmap string jval)
    (ctx : gmap string pyval) :
  (let! _ := add_jwt_data_to_app_context v1 in
   let! _ := add_jwt_data_to_app_context (PyDict d) in
   get_jwt_data_from_app_context) ctx
  = (Ok d, <["jwt_data" := PyDict d]> ctx)
  /\ (let! _ := add_jwt_data_to_app_context v2 in
      remove_jwt_data_from_app_context) ctx
     = (Ok tt, delete "jwt_data" ctx)
  /\ (ctx !! "jwt_data" = None ->
      (let! _ := add_jwt_data_to_app_context v2 in
       remove_jwt_data_from_app_context) ctx = (Ok tt, ctx)).
Proof.
  assert (Hrm : (let! _ := add_jwt_data_to_app_context v2 in
                 remove_jwt_data_from_app_context) ctx
                = (Ok tt, delete "jwt_data" ctx)).
  { unfold bind at 1. rewrite add_sets, remove_deletes.
    now rewrite delete_insert_eq. }
  split; [| split; [exact Hrm |]].
  - unfold bind at 1. rewrite add_sets. unfold bind at 1. rewrite add_sets.
    rewrite insert_insert_eq. apply get_after_add.
  - intros Hnone. rewrite Hrm. now rewrite delete_id.
Qed.

Section CustomClaimsProperties.

Variable RESERVED_CLAIMS : gset string.

(** X2: [None] can be stored as token data.  The attribute is then there,
    so [app_context_has_jwt_data] answers true, and yet the getter and all
    that reads through it raise [PraetorianError]. *)
Theorem none_as_token_data (ctx : gmap string pyval) :
  let ctx' := <["jwt_data" := PyNone]> ctx in
  add_jwt_data_to_app_context PyNone ctx = (Ok tt, ctx')
  /\ app_context_has_jwt_data ctx' = (Ok true, ctx')
  /\ get_jwt_data_from_app_context ctx' = (Raise PraetorianError, ctx')
  /\ current_user_id ctx' = (Raise PraetorianError, ctx')
  /\ current_rolenames ctx' = (Raise PraetorianError, ctx')
  /\ current_custom_claims RESERVED_CLAIMS ctx'
     = (Raise PraetorianError, ctx').
Proof.
  intros ctx'.
  assert (Hget : get_jwt_data_from_app_context ctx'
                 = (Raise PraetorianError, ctx')).
  { rewrite get_jwt_data_cases. unfold ctx'. now rewrite lookup_insert_eq. }
  split; [reflexivity |]. split.
  { rewrite has_jwt_data_spec. unfold ctx'. rewrite lookup_insert_eq.
    now rewrite bool_decide_eq_true_2 by eauto. }
  split; [exact Hget |].
  unfold current_user_id, current_rolenames, current_custom_claims, bind.
  now rewrite Hget.
Qed.

(** X6: the custom claims are the token data without the reserved names:
    a reserved name is never among them, every other claim is kept with its
    value, and token data of reserved names only gives the empty map. *)
Theorem custom_claims_are_the_unreserved (d : gmap string jval)
    (ctx : gmap string pyval) :
  ctx !! "jwt_data" = Some (PyDict d) ->
  exists custom,
    current_custom_claims RESERVED_CLAIMS ctx = (Ok custom, ctx)
    /\ (forall k, custom !! k
                  = if decide (k ∈ RESERVED_CLAIMS) then None else d !! k)
    /\ custom ⊆ d
    /\ dom custom = dom d ∖ RESERVED_CLAIMS
    /\ (dom d ⊆ RESERVED_CLAIMS -> custom = ∅).
Proof.
  intros Hctx.
  exists (filter (fun kv : string * jval => kv.1 ∉ RESERVED_CLAIMS) d).
  assert (Hlook : forall k,
    filter (fun kv : string * jval => kv.1 ∉ RESERVED_CLAIMS) d !! k
    = if decide (k ∈ RESERVED_CLAIMS) then None else d !! k).
  { intros k. destruct (decide (k ∈ RESERVED_CLAIMS)) as [Hin | Hnin].
    - apply map_lookup_filter_None. right. intros v _ Hk. now apply Hk.
    - destruct (d !! k) as [v|] eqn:E.
      + now apply map_lookup_filter_Some.
      + apply map_lookup_filter_None. now left. }
  split.
  { unfold current_custom_claims, bind. now rewrite (get_with_data d). }
  split; [exact Hlook |]. split; [apply map_filter_subseteq |]. split.
  - apply set_eq. intros k. rewrite elem_of_difference, !elem_of_dom, Hlook.
    destruct (decide (k ∈ RESERVED_CLAIMS)); split.
    + intros [? ?]. discriminate.
    + intros [_ ?]. contradiction.
    + intros ?. now split.
    + now intros [? _].
  - intros Hdom. apply map_empty. intros k. rewrite Hlook.
    destruct (decide (k ∈ RESERVED_CLAIMS)) as [| Hnin]; [reflexivity |].
    apply not_elem_of_dom. intros Hk. apply Hnin, Hdom, Hk.
Qed.

End CustomClaimsProperties.

Lemma current_user_id_outcome (ctx : gmap string pyval) :
  (forall user_id,
      current_user_id ctx = (Ok user_id, ctx)
      <-> user_id <> JNull
          /\ exists d, ctx !! "jwt_data" = Some (PyDict d)
                       /\ d !! "id" = Some user_id)
  /\ (current_user_id ctx = (Raise PraetorianError, ctx)
      \/ exists user_id, current_user_id ctx = (Ok user_id, ctx)).
Proof.
  unfold current_user_id, bind. rewrite get_jwt_data_cases.
  destruct (ctx !! "jwt_data") as [[|d]|] eqn:Hctx.
  - split; [| now left]. intros v. split; [discriminate |].
    intros (_ & d & [=] & _).
  - destruct (d !! "id") as [v|] eqn:Hid; simpl.
    + split.
      * intros u. split.
        -- destruct v; intros [= <-]; (split; [discriminate | eauto]).
        -- intros (Hne & d' & [= <-] & Hu). rewrite Hid in Hu.
           injection Hu as ->. now destruct u.
      * destruct v; [now left | right; eauto ..].
    + split; [| now left]. intros u. split; [discriminate |].
      intros (_ & d' & [= <-] & Hu). congruence.
  - split; [| now left]. intros v. split; [discriminate |].
    intros (_ & d & [=] & _).
Qed.

(** X3: [current_user_id] returns the [id] claim exactly when token data is
    attached, has an [id], and that id is not null; in every other case it
    raises [PraetorianError].  The context is left as it was. *)
Theorem current_user_id_cases (ctx : gmap string pyval) :
  (forall user_id,
      current_user_id ctx = (Ok user_id, ctx)
      <-> user_id <> JNull
          /\ exists d, ctx !! "jwt_data" = Some (PyDict d)
                       /\ d !! "id" = Some user_id)
  /\ (current_user_id ctx = (Raise PraetorianError, ctx)
      \/ exists user_id, current_user_id ctx = (Ok user_id, ctx)).
Proof. apply current_user_id_outcome. Qed.

(** X4: [current_rolenames] never returns the empty set; what it raises is
    [PraetorianError] (no token data) or [AttributeError] (a role claim that
    is not text), and it leaves the context as it was. *)
Theorem current_rolenames_never_empty (ctx : gmap string pyval) :
  exists r,
    current_rolenames ctx = (r, ctx)
    /\ match r with
       | Ok roles => roles <> ∅
       | Raise e => e = PraetorianError \/ e = AttributeError
       end.
Proof.
  unfold current_rolenames, bind. rewrite get_jwt_data_cases.
  destruct (ctx !! "jwt_data") as [[|d]|];
    [eexists; split; [reflexivity | now left] | |
     eexists; split; [reflexivity | now left]].
  destruct (d !! "rls") as [[|rls| |]|]; eexists; (split; [reflexivity |]);
    try (now right).
  - pose proof (split_not_nil "," rls) as Hne.
    destruct (PyStr.split "," rls) as [|e es]; [congruence |].
    intros Hempty.
    apply (not_elem_of_empty (C := gset string) (PyStr.strip e)).
    rewrite <- Hempty. apply elem_of_list_to_set. rewrite fmap_cons.
    apply list_elem_of_here.
  - intros Hempty.
    apply (not_elem_of_empty (C := gset string) no_roles_sentinel).
    rewrite <- Hempty. now apply elem_of_singleton.
Qed.

Lemma clean_role_strip (r : string) : clean_role r -> PyStr.strip r = r.
Proof.
  intros (_ & Hhead & Hend). symmetry. apply trimmed_of_strip.
  exists "", "". rewrite append_empty_l, append_empty_r.
  repeat split; assumption.
Qed.

(** X5: role names joined with commas into the role claim come back as the
    same set, when there is at least one and each is free of commas and of
    whitespace at its ends; the empty list comes back as the set that holds
    the empty name. *)
Theorem rolenames_round_trip (roles : list string) (d : gmap string jval)
    (ctx : gmap string pyval) :
  ctx !! "jwt_data" = Some (PyDict d) ->
  d !! "rls" = Some (JStr (PyStr.join "," roles)) ->
  (roles <> [] -> Forall clean_role roles ->
   current_rolenames ctx = (Ok (list_to_set roles), ctx))
  /\ (roles = [] -> current_rolenames ctx = (Ok {[ "" ]}, ctx)).
Proof.
  intros Hctx Hd.
  rewrite (current_rolenames_text d ctx _ Hctx Hd). split.
  - intros Hne Hclean.
    assert (Hsplit : PyStr.split "," (PyStr.join "," roles) = roles).
    { apply (comma_entries_unique (PyStr.join "," roles));
        [apply split_comma_entries |].
      split; [exact Hne | split; [reflexivity |]].
      eapply Forall_impl; [exact Hclean |]. now intros r (H & _). }
    rewrite Hsplit.
    assert (Hstrip : PyStr.strip <$> roles = roles); [| now rewrite Hstrip].
    clear -Hclean. induction Hclean as [|r rs Hr _ IH]; [reflexivity |].
    rewrite fmap_cons. now rewrite IH, (clean_role_strip r Hr).
  - intros ->. reflexivity.
Qed.

Section GuardProperties.

Context {Guard User : Type}.
Variable user_class_identify : Guard -> jval -> option User.

Lemma current_guard_cached (app : App (Guard := Guard)) (guard : Guard) :
  guard_cache app = Some guard -> current_guard app = (Ok guard, app).
Proof. intros H. unfold current_guard, lru_cache. now rewrite H. Qed.

Lemma current_guard_result (app app' : App (Guard := Guard)) (guard : Guard) :
  current_guard app = (Ok guard, app') ->
  guard_cache app' = Some guard
  /\ app_ctx app' = app_ctx app
  /\ app_extensions app' = app_extensions app.
Proof.
  unfold current_guard, lru_cache, find_guard.
  destruct (guard_cache app) as [g|] eqn:Hc.
  - intros [= <- <-]. now rewrite Hc.
  - destruct (app_extensions app) as [exts|] eqn:He; [| discriminate].
    destruct (exts !! "praetorian"); [| discriminate].
    intros [= <- <-]. simpl. now rewrite He.
Qed.

(** X7: [current_guard] keeps its first answer.  Once a call has returned a
    guard, every later call returns that guard, whatever the extensions hold
    by then; a call that raises caches nothing and changes nothing, and it
    raises because [extensions] is not set or has no guard; the first
    successful call returns the registered guard. *)
Theorem current_guard_keeps_first_answer (app : App (Guard := Guard)) :
  (forall guard app',
      current_guard app = (Ok guard, app') ->
      forall ctx extensions,
        let later := {| app_ctx := ctx; app_extensions := extensions;
                        guard_cache := guard_cache app' |} in
        current_guard later = (Ok guard, later))
  /\ (forall e app', current_guard app = (Raise e, app') ->
        app' = app /\ guard_cache app = None
        /\ (e = AttributeError /\ app_extensions app = None
            \/ e = PraetorianError
               /\ exists extensions,
                    app_extensions app = Some extensions
                    /\ extensions !! "praetorian" = None))
  /\ (guard_cache app = None ->
      forall extensions guard,
        app_extensions app = Some extensions ->
        extensions !! "praetorian" = Some guard ->
        current_guard app
        = (Ok guard, {| app_ctx := app_ctx app;
                        app_extensions := app_extensions app;
                        guard_cache := Some guard |})).
Proof.
  split; [| split].
  - intros guard app' Hg ctx extensions later.
    apply current_guard_cached. simpl.
    now destruct (current_guard_result _ _ _ Hg).
  - intros e app'. unfold current_guard, lru_cache, find_guard.
    destruct (guard_cache app) as [g|]; [discriminate |].
    destruct (app_extensions app) as [exts|].
    + destruct (exts !! "praetorian") eqn:E; [discriminate |].
      intros [= <- <-]. split; [reflexivity |]. split; [reflexivity |].
      right. split; [reflexivity |]. now exists exts.
    + intros [= <- <-]. split; [reflexivity |]. split; [reflexivity |].
      now left.
  - intros Hc exts guard Hexts Hg.
    unfold current_guard, lru_cache, find_guard.
    destruct app as [ctx exts0 cache]. simpl in *. subst.
    now rewrite Hg.
Qed.

(** X8: [current_user] returns a user exactly when the token data has a
    usable id, a guard is found, and the guard's user class identifies that
    id.  Without a usable id it raises [PraetorianError] before the guard is
    looked for; an id that the user class does not know raises
    [PraetorianError] too. *)
Theorem current_user_cases (app : App (Guard := Guard)) :
  (forall user app',
      current_user user_class_identify app = (Ok user, app')
      <-> exists user_id guard,
            current_user_id (app_ctx app) = (Ok user_id, app_ctx app)
            /\ current_guard app = (Ok guard, app')
            /\ user_class_identify guard user_id = Some user)
  /\ (current_user_id (app_ctx app) = (Raise PraetorianError, app_ctx app) ->
      current_user user_class_identify app = (Raise PraetorianError, app))
  /\ (forall user_id guard app',
        current_user_id (app_ctx app) = (Ok user_id, app_ctx app) ->
        current_guard app = (Ok guard, app') ->
        user_class_identify guard user_id = None ->
        current_user user_class_identify app = (Raise PraetorianError, app')).
Proof.
  assert (Hsame : forall r,
            current_user_id (app_ctx app) = (r, app_ctx app) ->
            on_ctx current_user_id app = (r, app)).
  { intros r Hr. unfold on_ctx. rewrite Hr. now destruct app. }
  split; [| split].
  - intros user app'. unfold current_user, bindA.
    destruct (current_user_id_outcome (app_ctx app)) as [_ [Hr | [uid Hr]]];
      rewrite (Hsame _ Hr).
    + split; [discriminate |]. intros (uid & g & Hu & _). congruence.
    + destruct (current_guard app) as [[g|e] app1] eqn:Hg.
      * destruct (user_class_identify g uid) as [u|] eqn:Hi.
        -- split.
           ++ intros [= <- <-]. now exists uid, g.
           ++ intros (uid' & g' & Hu & [= <- <-] & Hi').
              rewrite Hr in Hu. injection Hu as <-. congruence.
        -- split; [discriminate |].
           intros (uid' & g' & Hu & [= <- <-] & Hi').
           rewrite Hr in Hu. injection Hu as <-. congruence.
      * split; [discriminate |]. intros (uid' & g' & _ & [=] & _).
  - intros Hr. unfold current_user, bindA. now rewrite (Hsame _ Hr).
  - intros uid g app' Hr Hg Hi. unfold current_user, bindA.
    now rewrite (Hsame _ Hr), Hg, Hi.
Qed.

End GuardProperties.

(** ** The blacklist *)

Section BlacklistProperties.

Import Blacklist.

Variable extract_token : string -> result (gmap string jval).

Lemma blacklist_token_keeps (blacklist : list jval) (token : string)
    (jti : jval) :
  jti ∈ (blacklist_token extract_token blacklist token).2
  <-> jti ∈ blacklist
      \/ exists data, extract_token token = Ok data /\ data !! "jti" = Some jti.
Proof.
  unfold blacklist_token, is_blacklisted.
  destruct (extract_token token) as [data|e]; simpl.
  - destruct (data !! "jti") as [j|] eqn:Hj; simpl.
    + case_bool_decide as Hin.
      * split; [now left |]. intros [? | (d' & [= <-] & Hj')]; [assumption |].
        congruence.
      * rewrite elem_of_cons. split.
        -- intros [-> | ?]; [right; now exists data | now left].
        -- intros [? | (d' & [= <-] & Hj')]; [now right |].
           left. congruence.
    + split; [now left |]. intros [? | (d' & [= <-] & ?)]; [assumption |].
      congruence.
  - split; [now left |]. intros [? | (d' & [=] & _)]. assumption.
Qed.

(** X9: after any run of requests to the blacklist route, a token id is
    blacklisted exactly when one of the requests carried a token that was
    extracted and has this id; requests that fail blacklist nothing, and
    what is blacklisted stays so under further requests. *)
Theorem blacklist_holds_what_was_blacklisted (tokens : list string)
    (jti : jval) :
  (Blacklist.is_blacklisted (Blacklist.serve extract_token tokens) jti = true
   <-> exists token data,
         token ∈ tokens /\ extract_token token = Ok data
         /\ data !! "jti" = Some jti)
  /\ (forall more,
        Blacklist.is_blacklisted (Blacklist.serve extract_token tokens) jti
        = true ->
        Blacklist.is_blacklisted
          (Blacklist.serve extract_token (tokens ++ more)) jti = true).
Proof.
  assert (Hgen : forall tokens bl,
    jti ∈ foldl (fun blacklist token =>
                   (blacklist_token extract_token blacklist token).2) bl tokens
    <-> jti ∈ bl
        \/ exists token data,
             token ∈ tokens /\ extract_token token = Ok data
             /\ data !! "jti" = Some jti).
  { clear tokens. induction tokens as [|t ts IH]; intros bl; simpl.
    - split; [now left |]. intros [? | (t & d & Ht & _)]; [assumption |].
      now apply elem_of_nil in Ht.
    - rewrite IH, blacklist_token_keeps. split.
      + intros [[? | (d & Hd & Hj)] | (t' & d & Ht & Hd & Hj)].
        * now left.
        * right. exists t, d. split; [apply list_elem_of_here | now split].
        * right. exists t', d.
          split; [now apply list_elem_of_further | now split].
      + intros [? | (t' & d & Ht & Hd & Hj)]; [now left; left |].
        apply elem_of_cons in Ht as [-> | Ht].
        * left. right. now exists d.
        * right. now exists t', d. }
  assert (Hserve : forall ts,
    is_blacklisted (serve extract_token ts) jti = true
    <-> exists token data,
          token ∈ ts /\ extract_token token = Ok data
          /\ data !! "jti" = Some jti).
  { intros ts. unfold is_blacklisted, serve.
    rewrite bool_decide_eq_true, Hgen. split.
    - intros [Hin | ?]; [now apply elem_of_nil in Hin | assumption].
    - now right. }
  split; [apply Hserve |].
  intros more. rewrite !Hserve. intros (t & d & Ht & Hd).
  exists t, d. split; [| exact Hd]. apply elem_of_app. now left.
Qed.

End BlacklistProperties.


(** ** User models *)

Lemma filter_get_some {U} (p : U -> bool) (table : list U) (u : U) :
  filter_get p table = Some u -> u ∈ table /\ p u = true.
Proof.
  unfold filter_get. intros H. apply find_some in H as [Hin Hp].
  split; [now apply list_elem_of_In | exact Hp].
Qed.

Lemma filter_get_none {U} (p : U -> bool) (table : list U) :
  filter_get p table = None <-> forall u, u ∈ table -> p u = false.
Proof.
  unfold filter_get. split.
  - intros H u Hu. apply (find_none _ _ H). now apply list_elem_of_In.
  - intros H. destruct (find p table) as [u|] eqn:E; [| reflexivity].
    apply find_some in E as [Hin Hp].
    rewrite (H u) in Hp by (now apply list_elem_of_In). discriminate.
Qed.

Lemma filter_get_unique {U K} (key : U -> K) (p : U -> bool)
    (table : list U) (u : U) :
  NoDup (key <$> table) -> u ∈ table ->
  (forall v, p v = true <-> key v = key u) ->
  filter_get p table = Some u.
Proof.
  unfold filter_get. intros Hnd Hin Hp.
  induction table as [|w ws IH]; [now apply elem_of_nil in Hin |].
  rewrite fmap_cons in Hnd. apply NoDup_cons in Hnd as [Hw Hnd].
  simpl. destruct (p w) eqn:Epw.
  - apply Hp in Epw. apply elem_of_cons in Hin as [-> | Hin]; [reflexivity |].
    exfalso. apply Hw. rewrite Epw. now apply list_elem_of_fmap_2.
  - apply elem_of_cons in Hin as [-> | Hin].
    + assert (p w = true) by now apply Hp. congruence.
    + now apply IH.
Qed.

Section UserClassProperties.

Context {U : Type} `{UserClass U}.

Lemma truthy_nonempty (s : string) : PyStr.truthy s = true <-> s <> "".
Proof. destruct s; simpl; split; congruence. Qed.

(** X10: [lookup] with a username that is not empty searches by username
    only: a user it returns is stored and has that username, it returns
    [None] exactly when no stored user has it, and the email argument plays
    no part, not even when no username matches. *)
Theorem lookup_by_username (table : list U) (name : string)
    (email : option string) :
  name <> "" ->
  (forall u, lookup table (Some name) email = Some u ->
             u ∈ table /\ user_name u = name)
  /\ (lookup table (Some name) email = None
      <-> forall u, u ∈ table -> user_name u <> name)
  /\ lookup table (Some name) email = lookup table (Some name) None.
Proof.
  intros Hname. apply truthy_nonempty in Hname.
  unfold lookup. rewrite Hname. split; [| split; [| reflexivity]].
  - intros u Hu. apply filter_get_some in Hu as [Hin Hp].
    split; [exact Hin | now apply String.eqb_eq].
  - rewrite filter_get_none. split; intros Hall u Hu.
    + apply String.eqb_neq. now apply Hall.
    + apply String.eqb_neq. now apply Hall.
Qed.

(** X11: [lookup] without a username, or with the empty one, searches by
    email; with no email or the empty email it returns [None]. *)
Theorem lookup_without_username (table : list U) (username : option string)
    (email : string) :
  username = None \/ username = Some "" ->
  lookup table username None = None
  /\ lookup table username (Some "") = None
  /\ (email <> "" ->
      (forall u, lookup table username (Some email) = Some u ->
                 u ∈ table /\ user_email u = email)
      /\ (lookup table username (Some email) = None
          <-> forall u, u ∈ table -> user_email u <> email)).
Proof.
  intros Hu.
  assert (Hl : forall e, lookup table username e
                         = match e with
                           | Some e' =>
                               if PyStr.truthy e'
                               then filter_get
                                      (fun u => String.eqb (user_email u) e')
                                      table
                               else None
                           | None => None
                           end).
  { intros e. destruct Hu as [-> | ->]; reflexivity. }
  rewrite !Hl. split; [reflexivity |]. split; [reflexivity |].
  intros He. apply truthy_nonempty in He. rewrite He. split.
  - intros u Hget. apply filter_get_some in Hget as [Hin Hp].
    split; [exact Hin | now apply String.eqb_eq].
  - rewrite filter_get_none. split; intros Hall u Hin.
    + apply String.eqb_neq. now apply Hall.
    + apply String.eqb_neq. now apply Hall.
Qed.

(** X12: [identify] returns a stored user with the given id, and [None]
    exactly when no stored user has it. *)
Theorem identify_by_id (table : list U) (id : Z) :
  (forall u, identify table id = Some u -> u ∈ table /\ identity u = id)
  /\ (identify table id = None <-> forall u, u ∈ table -> identity u <> id).
Proof.
  unfold identify. split.
  - intros u Hu. apply filter_get_some in Hu as [Hin Hp].
    split; [exact Hin | now apply Z.eqb_eq].
  - rewrite filter_get_none. split; intros Hall u Hin.
    + apply Z.eqb_neq. now apply Hall.
    + apply Z.eqb_neq. now apply Hall.
Qed.

(** X13: with unique ids, usernames and emails, a stored user is found
    again by its id, by its username and by its email, provided the
    username or email searched by is not empty; a user whose username is
    empty is not found by it. *)
Theorem stored_user_is_found_again (table : list U) (u : U) :
  u ∈ table ->
  (NoDup (identity <$> table) -> identify table (identity u) = Some u)
  /\ (NoDup (user_name <$> table) -> user_name u <> "" ->
      forall email, lookup table (Some (user_name u)) email = Some u)
  /\ (NoDup (user_email <$> table) -> user_email u <> "" ->
      lookup table None (Some (user_email u)) = Some u)
  /\ (user_name u = "" ->
      lookup table (Some (user_name u)) None = None).
Proof.
  intros Hin. split; [| split; [| split]].
  - intros Hnd. unfold identify.
    apply (filter_get_unique identity); [assumption .. |].
    intros v. apply Z.eqb_eq.
  - intros Hnd Hname email. apply truthy_nonempty in Hname.
    unfold lookup. rewrite Hname.
    apply (filter_get_unique user_name); [assumption .. |].
    intros v. apply String.eqb_eq.
  - intros Hnd Hmail. apply truthy_nonempty in Hmail.
    unfold lookup. rewrite Hmail.
    apply (filter_get_unique user_email); [assumption .. |].
    intros v. apply String.eqb_eq.
  - intros ->. reflexivity.
Qed.

End UserClassProperties.

Lemma length_split (sep : ascii) (s : string) :
  List.length (PyStr.split sep s) = S (count_char sep s).
Proof.
  induction s as [|a s IH]; [reflexivity |]. simpl.
  destruct (Ascii.eqb a sep); simpl; [now rewrite IH |].
  destruct (PyStr.split sep s); simpl in *; lia.
Qed.

(** X14: the role names of a user are the pieces of the roles column:
    joined with commas they give the column back, there is one more of them
    than the column has commas, none contains a comma, and the list is
    empty only when the column holds no text.  A token whose role claim is
    these names joined with commas has the trimmed names as its roles. *)
Theorem rolenames_of_roles_column (u : Example.User) :
  (forall r,
      Example.roles u = Some r ->
      PyStr.join "," (Example.rolenames u) = r
      /\ List.length (Example.rolenames u) = S (count_char "," r)
      /\ Forall (fun e => count_char "," e = 0) (Example.rolenames u)
      /\ forall d ctx,
           ctx !! "jwt_data" = Some (PyDict d) ->
           d !! "rls" = Some (JStr (PyStr.join "," (Example.rolenames u))) ->
           current_rolenames ctx
           = (Ok (list_to_set (PyStr.strip <$> Example.rolenames u)), ctx))
  /\ (Example.rolenames u = [] <-> Example.roles u = None).
Proof.
  unfold Example.rolenames. split.
  - intros r ->. split; [apply join_split |].
    split; [apply length_split |]. split.
    + eapply Forall_impl; [apply split_pieces_no_sep |].
      intros e He. simpl in He. induction e as [|a e IH]; [reflexivity |].
      simpl in *. apply andb_prop in He as [Ha He].
      destruct (Ascii.eqb a ","); [discriminate | now apply IH].
    + intros d ctx Hctx Hd. rewrite join_split in Hd.
      now apply current_rolenames_text with (d := d).
  - destruct (Example.roles u) as [r|]; split; try congruence.
    intros Hnil. now destruct (split_not_nil "," r).
Qed.

(** ** More on duration texts *)

Ltac each_char a := destruct a as [[] [] [] [] [] [] [] []]; vm_compute.

Lemma lower_char_idem (a : ascii) :
  PyStr.lower_char (PyStr.lower_char a) = PyStr.lower_char a.
Proof. each_char a; reflexivity. Qed.

Lemma lower_char_space (a : ascii) :
  Ascii.eqb (PyStr.lower_char a) " " = Ascii.eqb a " ".
Proof. each_char a; reflexivity. Qed.

Lemma lower_char_comma (a : ascii) :
  Ascii.eqb (PyStr.lower_char a) "," = Ascii.eqb a ",".
Proof. each_char a; reflexivity. Qed.

Lemma plain_char (a : ascii) :
  PyStr.isdigit a || is_lower_az a = true ->
  PyStr.lower_char a = a /\ Ascii.eqb a " " = false /\ Ascii.eqb a "," = false.
Proof. each_char a; intros H; (discriminate H || (repeat split)). Qed.

Lemma remove_app (c : ascii) (a b : string) :
  PyStr.remove c (a ++ b) = PyStr.remove c a ++ PyStr.remove c b.
Proof.
  induction a as [|x a IH]; [reflexivity |]. rewrite append_cons. simpl.
  destruct (Ascii.eqb x c); [exact IH | now rewrite append_cons, IH].
Qed.

Lemma lower_app (a b : string) :
  PyStr.lower (a ++ b) = PyStr.lower a ++ PyStr.lower b.
Proof.
  induction a as [|x a IH]; [reflexivity |]. rewrite append_cons. simpl.
  now rewrite append_cons, IH.
Qed.

Lemma normalize_app (a b : string) :
  normalize (a ++ b) = normalize a ++ normalize b.
Proof. unfold normalize. now rewrite !remove_app, lower_app. Qed.

Lemma lower_idem (s : string) : PyStr.lower (PyStr.lower s) = PyStr.lower s.
Proof.
  induction s as [|a s IH]; [reflexivity |]. simpl.
  now rewrite lower_char_idem, IH.
Qed.

Lemma remove_lower (c : ascii) (s : string) :
  (forall a, Ascii.eqb (PyStr.lower_char a) c = Ascii.eqb a c) ->
  PyStr.remove c (PyStr.lower s) = PyStr.lower (PyStr.remove c s).
Proof.
  intros Hc. induction s as [|a s IH]; [reflexivity |]. simpl.
  rewrite Hc. destruct (Ascii.eqb a c); [exact IH | simpl; now rewrite IH].
Qed.

Lemma remove_remove (c1 c2 : ascii) (s : string) :
  PyStr.remove c1 (PyStr.remove c2 s) = PyStr.remove c2 (PyStr.remove c1 s).
Proof.
  induction s as [|a s IH]; [reflexivity |]. simpl.
  destruct (Ascii.eqb a c2) eqn:E2, (Ascii.eqb a c1) eqn:E1; simpl;
    rewrite ?E1, ?E2, ?IH; reflexivity.
Qed.

Lemma remove_idem (c : ascii) (s : string) :
  PyStr.remove c (PyStr.remove c s) = PyStr.remove c s.
Proof.
  induction s as [|a s IH]; [reflexivity |]. simpl.
  destruct (Ascii.eqb a c) eqn:E; simpl; rewrite ?E, ?IH; reflexivity.
Qed.

Lemma normalize_lower (s : string) : normalize (PyStr.lower s) = normalize s.
Proof.
  unfold normalize.
  rewrite (remove_lower " ") by apply lower_char_space.
  rewrite (remove_lower ",") by apply lower_char_comma.
  apply lower_idem.
Qed.

Lemma normalize_idem (s : string) : normalize (normalize s) = normalize s.
Proof.
  unfold normalize at 2. rewrite normalize_lower. unfold normalize.
  rewrite (remove_remove " " ","). now rewrite !remove_idem.
Qed.


Lemma normalize_plain (s : string) : plain s = true -> normalize s = s.
Proof.
  unfold normalize. induction s as [|a s IH]; [reflexivity |]. simpl.
  intros [Ha Hs]%andb_prop. destruct (plain_char a Ha) as (Hl & Hsp & Hco).
  rewrite Hsp. simpl. rewrite Hco. simpl. now rewrite Hl, IH.
Qed.

Lemma plain_app (a b : string) : plain (a ++ b) = plain a && plain b.
Proof.
  induction a as [|x a IH]; [reflexivity |]. rewrite append_cons. simpl.
  now rewrite IH, andb_assoc.
Qed.

Lemma plain_digits (ds : string) :
  PyStr.all_chars PyStr.isdigit ds = true -> plain ds = true.
Proof.
  induction ds as [|a s IH]; [reflexivity |]. simpl.
  intros [Ha Hs]%andb_prop. now rewrite Ha, IH.
Qed.

Lemma plain_letters (s : string) :
  PyStr.all_chars is_lower_az s = true -> plain s = true.
Proof.
  induction s as [|a s IH]; [reflexivity |]. simpl.
  intros [Ha Hs]%andb_prop. now rewrite Ha, orb_true_r, IH.
Qed.

Lemma drop_while_all (p : ascii -> bool) (s : string) :
  PyStr.all_chars p s = true -> PyStr.drop_while p s = "".
Proof.
  induction s as [|a s IH]; [reflexivity |]. simpl.
  intros [Ha Hs]%andb_prop. now rewrite Ha, IH.
Qed.

Lemma drop_while_head (p : ascii -> bool) (s : string) :
  match PyStr.drop_while p s with
  | String c _ => p c = false
  | EmptyString => True
  end.
Proof.
  induction s as [|a s IH]; [exact I |]. simpl.
  destruct (p a) eqn:E; [exact IH | exact E].
Qed.

Lemma single_pass_nonempty (groups : list (string * string)) :
  forall t (d : gmap string Z),
    d <> ∅ -> (single_pass groups t d).1 <> ∅.
Proof.
  induction groups as [|[n u] rest IH]; intros t d Hd; [exact Hd |].
  cbn [single_pass]. destruct (scan_group u t) as [[ds t']|]; apply IH;
    [apply insert_non_empty | exact Hd].
Qed.

Lemma single_pass_all_none (groups : list (string * string)) (t : string)
    (d : gmap string Z) :
  (forall n u, (n, u) ∈ groups -> scan_group u t = None) ->
  single_pass groups t d = (d, t).
Proof.
  induction groups as [|[n u] rest IH]; intros Hall; [reflexivity |].
  cbn [single_pass]. rewrite (Hall n u) by apply list_elem_of_here.
  apply IH. intros n' u' Hin. apply (Hall n' u').
  now apply list_elem_of_further.
Qed.

Lemma after_prefix_cons (a : ascii) (u : string) (c : ascii) (r : string) :
  after_prefix (String a u) (String c r)
  = if Ascii.eqb a c then after_prefix u r else None.
Proof. reflexivity. Qed.

Ltac each_group H :=
  repeat (apply elem_of_cons in H as [H | H]; [injection H as -> -> |]);
  [.. | now apply elem_of_nil in H].

Lemma fields_empty_iff (t : string) :
  (single_pass unit_groups t ∅).1 = ∅
  <-> begins_with_number_and_unit t = false.
Proof.
  unfold begins_with_number_and_unit.
  pose proof (take_drop_while PyStr.isdigit t) as Ht.
  pose proof (drop_while_head PyStr.isdigit t) as Hhead.
  pose proof (take_while_all PyStr.isdigit t) as Hds.
  destruct (PyStr.take_while PyStr.isdigit t) as [|a ds] eqn:Eds.
  { split; [reflexivity |]. intros _.
    rewrite single_pass_all_none; [reflexivity |].
    intros n u _. unfold scan_group. now rewrite Eds. }
  set (num := String a ds) in *.
  assert (Hnum : num <> "") by discriminate.
  assert (Htr : PyStr.truthy num = true) by reflexivity.
  assert (Hscan : forall u,
            scan_group u t
            = match after_prefix u (PyStr.drop_while PyStr.isdigit t) with
              | Some r' => Some (num, PyStr.drop_while is_lower_az r')
              | None => None
              end).
  { intros u. rewrite <- Ht at 1. now apply scan_group_number. }
  clearbody num. clear Eds Ht. rewrite Htr. cbn [andb].
  destruct (PyStr.drop_while PyStr.isdigit t) as [|c r] eqn:Er.
  { split; [reflexivity |]. intros _.
    rewrite single_pass_all_none; [reflexivity |].
    intros n u Hin. rewrite Hscan. each_group Hin; reflexivity. }
  assert (Hfound : forall (before : list (string * string)) n u rest r',
            unit_groups = (before ++ (n, u) :: rest)%list ->
            (forall n' u', (n', u') ∈ before ->
                           after_prefix u' (String c r) = None) ->
            after_prefix u (String c r) = Some r' ->
            (single_pass unit_groups t ∅).1 <> ∅).
  { intros before n u rest r' -> Hbefore Hu.
    assert (Hgo : forall d,
              (single_pass (before ++ (n, u) :: rest)%list t d).1 <> ∅).
    { induction before as [|[n0 u0] bs IH]; intros d.
      - cbn [app single_pass]. rewrite Hscan, Hu.
        apply single_pass_nonempty, insert_non_empty.
      - cbn [app single_pass]. rewrite Hscan.
        rewrite (Hbefore n0 u0) by apply list_elem_of_here.
        apply IH. intros n' u' Hin. apply (Hbefore n' u').
        now apply list_elem_of_further. }
    apply Hgo. }
  unfold unit_letter.
  destruct (Ascii.eqb_spec "y" c) as [<- | Hy].
  { split; [| discriminate]. intros Hempty. exfalso. revert Hempty.
    apply (Hfound [] "years" "y" (tail unit_groups) r); [reflexivity | |].
    - intros ? ? Hin. now apply elem_of_nil in Hin.
    - reflexivity. }
  destruct (Ascii.eqb_spec "m" c) as [<- | Hm].
  { split; [| discriminate]. intros Hempty. exfalso. revert Hempty.
    destruct (after_prefix "o" r) as [r'|] eqn:Eo.
    - apply (Hfound [("years", "y")] "months" "mo"
               (tail (tail unit_groups)) r'); [reflexivity | |].
      + intros ? ? Hin. apply list_elem_of_singleton in Hin.
        now injection Hin as -> ->.
      + rewrite after_prefix_cons. exact Eo.
    - apply (Hfound [("years", "y"); ("months", "mo"); ("days", "d");
                     ("hours", "h")] "minutes" "m" [("seconds", "s")] r);
        [reflexivity | |].
      + intros n' u' Hin.
        repeat (apply elem_of_cons in Hin as [Hin | Hin];
                [injection Hin as -> -> |]);
          [.. | now apply elem_of_nil in Hin]; try reflexivity.
        rewrite after_prefix_cons. exact Eo.
      + reflexivity. }
  destruct (Ascii.eqb_spec "d" c) as [<- | Hd].
  { split; [| discriminate]. intros Hempty. exfalso. revert Hempty.
    apply (Hfound [("years", "y"); ("months", "mo")] "days" "d"
             (tail (tail (tail unit_groups))) r); [reflexivity | |].
    - intros n' u' Hin.
      repeat (apply elem_of_cons in Hin as [Hin | Hin];
              [injection Hin as -> -> |]);
        [.. | now apply elem_of_nil in Hin]; reflexivity.
    - reflexivity. }
  destruct (Ascii.eqb_spec "h" c) as [<- | Hh].
  { split; [| discriminate]. intros Hempty. exfalso. revert Hempty.
    apply (Hfound [("years", "y"); ("months", "mo"); ("days", "d")]
             "hours" "h" [("minutes", "m"); ("seconds", "s")] r);
      [reflexivity | |].
    - intros n' u' Hin.
      repeat (apply elem_of_cons in Hin as [Hin | Hin];
              [injection Hin as -> -> |]);
        [.. | now apply elem_of_nil in Hin]; reflexivity.
    - reflexivity. }
  destruct (Ascii.eqb_spec "s" c) as [<- | Hs].
  { split; [| discriminate]. intros Hempty. exfalso. revert Hempty.
    apply (Hfound [("years", "y"); ("months", "mo"); ("days", "d");
                   ("hours", "h"); ("minutes", "m")] "seconds" "s" [] r);
      [reflexivity | |].
    - intros n' u' Hin.
      repeat (apply elem_of_cons in Hin as [Hin | Hin];
              [injection Hin as -> -> |]);
        [.. | now apply elem_of_nil in Hin]; reflexivity.
    - reflexivity. }
  split.
  - intros _. apply bool_decide_eq_false.
    rewrite !elem_of_cons, elem_of_nil. intuition congruence.
  - intros _. rewrite single_pass_all_none; [reflexivity |].
    intros n u Hin. rewrite Hscan.
    each_group Hin; rewrite after_prefix_cons;
      match goal with
      | |- context [Ascii.eqb ?x c] =>
          destruct (Ascii.eqb_spec x c); [congruence | reflexivity]
      end.
Qed.

Lemma scan_group_empty (u : string) : scan_group u "" = None.
Proof. reflexivity. Qed.

Lemma single_pass_one (before rest : list (string * string))
    (n u t ds t' : string) (d : gmap string Z) :
  (forall n' u', (n', u') ∈ before -> scan_group u' t = None) ->
  scan_group u t = Some (ds, t') ->
  (forall n' u', (n', u') ∈ rest -> scan_group u' t' = None) ->
  single_pass (before ++ (n, u) :: rest)%list t d
  = (<[ n := PyStr.int ds ]> d, t').
Proof.
  intros Hbefore Hu Hrest.
  induction before as [|[n0 u0] bs IH].
  - cbn [app single_pass]. rewrite Hu. now apply single_pass_all_none.
  - cbn [app single_pass].
    rewrite (Hbefore n0 u0) by apply list_elem_of_here.
    apply IH. intros n' u' Hin. apply (Hbefore n' u').
    now apply list_elem_of_further.
Qed.

Lemma pretty_go_digits (x : N) :
  forall s, exists ds,
    pretty_N_go x s = ds ++ s
    /\ PyStr.all_chars PyStr.isdigit ds = true
    /\ (0 < x -> ds <> "")%N
    /\ PyStr.int ds = Z.of_N x.
Proof.
  induction (N.lt_wf_0 x) as [x _ IH]. intros s.
  destruct (N.eq_dec x 0) as [-> | Hx].
  - exists "". rewrite pretty_N_go_0. repeat split. lia.
  - rewrite pretty_N_go_step by lia.
    destruct (IH (x `div` 10)%N ltac:(apply N.div_lt; lia)
                (String (pretty_N_char (x `mod` 10)) s))
      as (ds & Heq & Hds & _ & Hval).
    exists (ds ++ String (pretty_N_char (x `mod` 10)) "").
    assert (Hlt : (x `mod` 10 < 10)%N) by (apply N.mod_lt; lia).
    assert (Hch : PyStr.isdigit (pretty_N_char (x `mod` 10)) = true
                  /\ PyStr.digit_value (pretty_N_char (x `mod` 10))
                     = Z.of_N (x `mod` 10)).
    { destruct (x `mod` 10)%N as [|p]; [split; reflexivity |].
      do 4 (destruct p as [p|p|]; try (split; reflexivity); try lia). }
    destruct Hch as [Hch Hdv].
    split; [| split; [| split]].
    + rewrite Heq, append_assoc. reflexivity.
    + clear -Hds Hch. induction ds as [|a ds IHds].
      * simpl. now rewrite Hch.
      * rewrite append_cons. simpl in *.
        apply andb_prop in Hds as [Ha Hds]. now rewrite Ha, IHds.
    + intros _. destruct ds; discriminate.
    + unfold PyStr.int in *.
      assert (Happ : forall a t u, PyStr.int_acc a (t ++ u)
                                   = PyStr.int_acc (PyStr.int_acc a t) u).
      { clear. intros a t. revert a.
        induction t as [|c t IHt]; intros a u; [reflexivity |].
        rewrite append_cons. simpl. apply IHt. }
      rewrite Happ, Hval. simpl. rewrite Hdv.
      rewrite N2Z.inj_div, N2Z.inj_mod.
      pose proof (Z.div_mod (Z.of_N x) 10 ltac:(lia)). lia.
Qed.

Lemma pretty_digits (n : N) :
  pretty n <> ""
  /\ PyStr.all_chars PyStr.isdigit (pretty n) = true
  /\ PyStr.int (pretty n) = Z.of_N n.
Proof.
  unfold pretty, pretty_N. destruct (decide (n = 0%N)) as [-> | Hn].
  - repeat split. discriminate.
  - destruct (pretty_go_digits n "") as (ds & Heq & Hds & Hne & Hval).
    rewrite Heq, append_empty_r. split; [apply Hne; lia | now split].
Qed.

Section MoreDurationProperties.

Context {Duration : Type}.
Variable pendulum_duration : gmap string Z -> option Duration.

Lemma duration_from_normal_form (text text' : string) :
  normalize text = normalize text' ->
  duration_from_string pendulum_duration text
  = duration_from_string pendulum_duration text'.
Proof. intros E. unfold duration_from_string. now rewrite E. Qed.

(** X15: a space or a comma anywhere in the text, and the case of its
    letters, make no difference to what [duration_from_string] returns. *)
Theorem duration_ignores_spacing_and_case (a b text : string) :
  duration_from_string pendulum_duration (a ++ " " ++ b)
  = duration_from_string pendulum_duration (a ++ b)
  /\ duration_from_string pendulum_duration (a ++ "," ++ b)
     = duration_from_string pendulum_duration (a ++ b)
  /\ duration_from_string pendulum_duration (PyStr.lower text)
     = duration_from_string pendulum_duration text
  /\ duration_from_string pendulum_duration (normalize text)
     = duration_from_string pendulum_duration text.
Proof.
  split; [| split; [| split]]; apply duration_from_normal_form.
  - rewrite !normalize_app. reflexivity.
  - rewrite !normalize_app. reflexivity.
  - apply normalize_lower.
  - apply normalize_idem.
Qed.

(** X16: [duration_from_string] raises at its checks exactly when the
    normalized text does not begin with a number followed by one of the
    letters y, m, d, h, s; otherwise the constructor is called with a map
    that is not empty. *)
Theorem duration_fails_exactly_when (text : string) :
  (begins_with_number_and_unit (normalize text) = false ->
   duration_from_string pendulum_duration text = Raise ConfigurationError)
  /\ (begins_with_number_and_unit (normalize text) = true ->
      parse_fields text <> ∅
      /\ duration_from_string pendulum_duration text
         = match pendulum_duration (parse_fields text) with
           | Some d => Ok d
           | None => Raise ConfigurationError
           end).
Proof.
  rewrite duration_from_string_in_words. unfold parse_in_words.
  pose proof (fields_empty_iff (normalize text)) as Hiff.
  fold (parse_fields text) in Hiff. split.
  - intros Hb. now rewrite bool_decide_eq_true_2 by now apply Hiff.
  - intros Hb.
    assert (Hne : parse_fields text <> ∅).
    { intros E. apply Hiff in E. congruence. }
    split; [exact Hne |]. now rewrite bool_decide_eq_false_2.
Qed.

(** X17: when the text begins with a number of seconds, only that is read:
    whatever follows, other units included, is left out of the result. *)
Theorem nothing_is_read_after_seconds (text ds rest : string) :
  ds <> "" -> PyStr.all_chars PyStr.isdigit ds = true ->
  normalize text = ds ++ "s" ++ rest ->
  parse_fields text = {[ "seconds" := PyStr.int ds ]}
  /\ duration_from_string pendulum_duration text
     = match pendulum_duration {[ "seconds" := PyStr.int ds ]} with
       | Some d => Ok d
       | None => Raise ConfigurationError
       end.
Proof.
  intros Hne Hds Ht.
  assert (Hf : parse_fields text = {[ "seconds" := PyStr.int ds ]}).
  { unfold parse_fields. rewrite Ht.
    change unit_groups
      with ([("years", "y"); ("months", "mo"); ("days", "d");
             ("hours", "h"); ("minutes", "m")]
            ++ ("seconds", "s") :: [])%list.
    rewrite (single_pass_one _ _ _ _ _ ds (PyStr.drop_while is_lower_az rest)).
    - now rewrite insert_empty.
    - intros n' u' Hin.
      each_group Hin; now apply scan_group_other_unit.
    - now apply scan_group_this_unit.
    - intros n' u' Hin. now apply elem_of_nil in Hin. }
  split; [exact Hf |].
  rewrite duration_from_string_in_words. unfold parse_in_words. rewrite Hf.
  rewrite bool_decide_eq_false_2; [reflexivity |].
  apply insert_non_empty.
Qed.

Lemma number_unit_letters (name unit ds letters : string) :
  (name, unit) ∈ unit_groups ->
  ds <> "" -> PyStr.all_chars PyStr.isdigit ds = true ->
  PyStr.all_chars is_lower_az letters = true ->
  (unit = "m" -> forall l, letters <> String "o" l) ->
  duration_from_string pendulum_duration (ds ++ unit ++ letters)
  = match pendulum_duration {[ name := PyStr.int ds ]} with
    | Some d => Ok d
    | None => Raise ConfigurationError
    end.
Proof.
  intros Hin Hne Hds Hletters Hm.
  assert (Hunit : plain unit = true) by (each_group Hin; reflexivity).
  assert (Hnorm : normalize (ds ++ unit ++ letters) = ds ++ unit ++ letters).
  { apply normalize_plain. rewrite !plain_app.
    now rewrite (plain_digits ds), Hunit, (plain_letters letters). }
  assert (Hf : parse_fields (ds ++ unit ++ letters)
               = {[ name := PyStr.int ds ]}).
  { unfold parse_fields. rewrite Hnorm.
    assert (Hrest : forall (rest : list (string * string)) (n' u' : string),
              (n', u') ∈ rest ->
              scan_group u' (PyStr.drop_while is_lower_az letters) = None).
    { intros rest n' u' _. now rewrite drop_while_all. }
    assert (Hthis : forall u,
              no_leading_digit (u ++ letters) ->
              after_prefix u (u ++ letters) = Some letters ->
              scan_group u (ds ++ u ++ letters)
              = Some (ds, PyStr.drop_while is_lower_az letters)).
    { intros u Hd Hu. now apply scan_group_this_unit. }
    each_group Hin.
    - change unit_groups with ([] ++ ("years", "y") :: tail unit_groups)%list.
      rewrite (single_pass_one _ _ _ _ _ ds
                 (PyStr.drop_while is_lower_az letters));
        [now rewrite insert_empty | | now apply Hthis | apply Hrest].
      intros n' u' Hin'. now apply elem_of_nil in Hin'.
    - change unit_groups
        with ([("years", "y")]
              ++ ("months", "mo") :: tail (tail unit_groups))%list.
      rewrite (single_pass_one _ _ _ _ _ ds
                 (PyStr.drop_while is_lower_az letters));
        [now rewrite insert_empty | | now apply Hthis | apply Hrest].
      intros n' u' Hin'. each_group Hin'; now apply scan_group_other_unit.
    - change unit_groups
        with ([("years", "y"); ("months", "mo")]
              ++ ("days", "d") :: tail (tail (tail unit_groups)))%list.
      rewrite (single_pass_one _ _ _ _ _ ds
                 (PyStr.drop_while is_lower_az letters));
        [now rewrite insert_empty | | now apply Hthis | apply Hrest].
      intros n' u' Hin'. each_group Hin'; now apply scan_group_other_unit.
    - change unit_groups
        with ([("years", "y"); ("months", "mo"); ("days", "d")]
              ++ ("hours", "h") :: [("minutes", "m"); ("seconds", "s")])%list.
      rewrite (single_pass_one _ _ _ _ _ ds
                 (PyStr.drop_while is_lower_az letters));
        [now rewrite insert_empty | | now apply Hthis | apply Hrest].
      intros n' u' Hin'. each_group Hin'; now apply scan_group_other_unit.
    - change unit_groups
        with ([("years", "y"); ("months", "mo"); ("days", "d");
               ("hours", "h")]
              ++ ("minutes", "m") :: [("seconds", "s")])%list.
      rewrite (single_pass_one _ _ _ _ _ ds
                 (PyStr.drop_while is_lower_az letters));
        [now rewrite insert_empty | | now apply Hthis | apply Hrest].
      intros n' u' Hin'.
      each_group Hin'; apply scan_group_other_unit; try assumption;
        try reflexivity.
      apply mo_needs_o. now apply Hm.
    - change unit_groups
        with ([("years", "y"); ("months", "mo"); ("days", "d");
               ("hours", "h"); ("minutes", "m")]
              ++ ("seconds", "s") :: [])%list.
      rewrite (single_pass_one _ _ _ _ _ ds
                 (PyStr.drop_while is_lower_az letters));
        [now rewrite insert_empty | | now apply Hthis | apply Hrest].
      intros n' u' Hin'. each_group Hin'; now apply scan_group_other_unit. }
  rewrite duration_from_string_in_words. unfold parse_in_words. rewrite Hf.
  rewrite bool_decide_eq_false_2; [reflexivity |].
  apply insert_non_empty.
Qed.

(** X18: lower-case letters after the unit prefix are skipped, whatever
    they are: a number, a unit prefix and any such letters give that unit
    alone (for [m], letters that do not begin with [o]). *)
Theorem letters_after_the_unit_are_skipped (name unit ds letters : string) :
  (name, unit) ∈ unit_groups ->
  ds <> "" -> PyStr.all_chars PyStr.isdigit ds = true ->
  PyStr.all_chars is_lower_az letters = true ->
  (unit = "m" -> forall l, letters <> String "o" l) ->
  duration_from_string pendulum_duration (ds ++ unit ++ letters)
  = match pendulum_duration {[ name := PyStr.int ds ]} with
    | Some d => Ok d
    | None => Raise ConfigurationError
    end.
Proof. apply number_unit_letters. Qed.

(** X19: a number written in decimal and followed by a unit prefix parses
    to that number of that unit. *)
Theorem number_and_unit_round_trip (n : N) (name unit : string) :
  (name, unit) ∈ unit_groups ->
  duration_from_string pendulum_duration (pretty n ++ unit)
  = match pendulum_duration {[ name := Z.of_N n ]} with
    | Some d => Ok d
    | None => Raise ConfigurationError
    end.
Proof.
  intros Hin. destruct (pretty_digits n) as (Hne & Hds & Hval).
  rewrite <- Hval. rewrite <- (append_empty_r unit) at 1.
  apply number_unit_letters; try assumption; [reflexivity |].
  intros _ l. discriminate.
Qed.

End MoreDurationProperties.

(** X20: every entry of the map handed to the constructor is keyed by one
    of the six unit names and holds the value of the digits that the group
    of that name captured, which is not negative. *)
Theorem duration_fields_are_unit_counts (text : string) (m : Re.Match)
    (k : string) (z : Z) :
  Re.match_ duration_pattern (normalize text) = Some m ->
  clean_of (Re.groupdict duration_pattern m) !! k = Some z ->
  k ∈ unit_groups.*1 /\ (0 <= z)%Z
  /\ exists v, Re.m_groups m !! k = Some v /\ z = PyStr.int v
               /\ v <> "" /\ PyStr.all_chars PyStr.isdigit v = true.
Proof.
  intros Hm Hz.
  destruct (match_then_fields text) as (m' & Hm' & Hclean & Hfields & Hcap).
  rewrite Hm in Hm'. injection Hm' as <-.
  rewrite Hclean, Hfields, lookup_fmap in Hz.
  destruct (Re.m_groups m !! k) as [v|] eqn:Hv; [| discriminate].
  injection Hz as <-. destruct (Hcap k v Hv) as (Hin & Hne & Hd).
  split; [exact Hin |]. split; [now apply int_acc_nonneg |].
  now exists v.
Qed.

(** ** Instances *)

Lemma rolenames_round_trip_witness :
  let d : gmap string jval := {[ "rls" := JStr "admin,operator" ]} in
  let ctx : gmap string pyval := {[ "jwt_data" := PyDict d ]} in
  current_rolenames ctx = (Ok (list_to_set ["admin"; "operator"]), ctx).
Proof.
  intros d ctx.
  destruct (rolenames_round_trip ["admin"; "operator"] d ctx) as [H _];
    [reflexivity | reflexivity |].
  apply H; [discriminate |].
  repeat constructor.
Defined.

Lemma custom_claims_are_the_unreserved_witness :
  let d : gmap string jval := {[ "id" := JInt 1; "nickname" := JStr "dude" ]} in
  let ctx : gmap string pyval := {[ "jwt_data" := PyDict d ]} in
  exists custom,
    current_custom_claims {[ "id"; "rls" ]} ctx = (Ok custom, ctx)
    /\ custom !! "nickname" = Some (JStr "dude")
    /\ custom !! "id" = None.
Proof.
  intros d ctx.
  destruct (custom_claims_are_the_unreserved {[ "id"; "rls" ]} d ctx)
    as (custom & Hc & Hl & _); [reflexivity |].
  exists custom. split; [exact Hc |]. rewrite !Hl. split; reflexivity.
Defined.

Lemma lookup_by_username_witness :
  lookup [the_dude] (Some "the_dude") (Some "walter@mock.com")
  = lookup [the_dude] (Some "the_dude") None.
Proof.
  destruct (lookup_by_username [the_dude] "the_dude" (Some "walter@mock.com"))
    as (_ & _ & H); [discriminate | exact H].
Defined.

Lemma lookup_without_username_witness :
  lookup [the_dude] None None = None.
Proof.
  destruct (lookup_without_username [the_dude] None "the_dude@mock.com")
    as (H & _); [now left | exact H].
Defined.

Lemma stored_user_is_found_again_witness :
  identify [the_dude] 1 = Some the_dude.
Proof.
  destruct (stored_user_is_found_again [the_dude] the_dude) as (H & _);
    [apply list_elem_of_here |].
  apply H. repeat constructor. intros Hin. now apply elem_of_nil in Hin.
Defined.

Lemma nothing_is_read_after_seconds_witness :
  parse_fields "30s 5m" = {[ "seconds" := 30%Z ]}.
Proof.
  destruct (nothing_is_read_after_seconds (Duration := gmap string Z) Some
              "30s 5m" "30" "5m") as [H _];
    [discriminate | reflexivity | reflexivity | exact H].
Defined.

Lemma letters_after_the_unit_are_skipped_witness :
  duration_from_string Some "5horses" = Ok {[ "hours" := 5%Z ]}.
Proof.
  exact (letters_after_the_unit_are_skipped (Duration := gmap string Z) Some
           "hours" "h" "5" "orses"
           ltac:(unfold unit_groups; do 3 apply list_elem_of_further;
                 apply list_elem_of_here)
           ltac:(discriminate) eq_refl eq_refl ltac:(discriminate)).
Defined.

Lemma number_and_unit_round_trip_witness :
  duration_from_string Some "90d" = Ok {[ "days" := 90%Z ]}.
Proof.
  exact (number_and_unit_round_trip (Duration := gmap string Z) Some 90
           "days" "d"
           ltac:(unfold unit_groups; do 2 apply list_elem_of_further;
                 apply list_elem_of_here)).
Defined.

Lemma duration_fields_are_unit_counts_witness :
  "hours" ∈ unit_groups.*1 /\ (0 <= 1)%Z.
Proof.
  destruct (duration_fields_are_unit_counts "1 Hour"
              {| Re.m_groups := {[ "hours" := "1" ]}; Re.m_rest := "" |}
              "hours" 1) as (H1 & H2 & _);
    [reflexivity | reflexivity | now split].
Defined.
